(** * PyNS: the preconditioned Conjugate Gradient solver and the Tecplot export

    A shallow embedding of [pyns/solvers/nonstationary/cg.py] and of
    [pyns/display/plot/tecplot.py].

    - Python floats are idealised as exact rationals ([Qc]). What rounding
      does to a result is shown once, in module [Binary64], where [cg] is
      embedded a second time over IEEE 754 binary64 numbers.
    - A numpy array is its shape together with its entries in C order.
      Arithmetic between arrays broadcasts as numpy does and raises
      [ValueError] when the shapes cannot be broadcast.
    - A division whose denominator is zero yields [ZeroDivision]: numpy goes
      on with inf or nan there (and Python floats raise); the embedding
      stops at that point and says nothing about what follows.
    - Arrays live in a store of locations, so that two names for one array
      (as [x] and [phi.val] in [cg]) are the same location. *)

From Stdlib Require Import QArith Qcanon ZArith List String Ascii Lia Field.
From Stdlib Require Import DecimalString DecimalZ DecimalPos.
From Stdlib Require PrimFloat.
From stdpp Require Import base option list gmap.

Local Open Scope Qc_scope.

(** ** Errors and the result monad *)

Inductive error : Type :=
| ValueError      (* numpy: operands could not be broadcast together *)
| ZeroDivision    (* a division by zero was evaluated *)
| NameError       (* a local variable read before it was bound *)
| TypeError       (* e.g. subscripting None *)
| IndexError      (* an index outside the array *)
| Dangling.       (* a location that holds no array *)

Inductive result (A : Type) : Type :=
| Ok (a : A)
| Err (e : error).
Arguments Ok {A} a.
Arguments Err {A} e.

Definition rbind {A B : Type} (m : result A) (k : A -> result B) : result B :=
  match m with
  | Ok a => k a
  | Err e => Err e
  end.

Declare Scope result_scope.
Delimit Scope result_scope with result.
Notation "'do' x <- m ; k" := (rbind m (fun x => k))
  (at level 10, x pattern, m at level 100, k at level 200) : result_scope.
Local Open Scope result_scope.

(** ** Arrays *)

Definition shape : Type := nat * nat * nat.

Record Array : Type := mkArray { a_shape : shape; a_data : list Qc }.

Definition size (s : shape) : nat :=
  let '(nx, ny, nz) := s in (nx * ny * nz)%nat.

(** [prod(a.shape)] *)
Definition prod (s : shape) : Z := Z.of_nat (size s).

Definition wf (a : Array) : Prop := length (a_data a) = size (a_shape a).

Definition zeros (s : shape) : Array := mkArray s (repeat 0 (size s)).

(** Entry [(i, j, k)] in C order. *)
Definition offset (s : shape) (i j k : nat) : nat :=
  let '(_, ny, nz) := s in ((i * ny + j) * nz + k)%nat.

Definition get (a : Array) (i j k : nat) : Qc :=
  nth (offset (a_shape a) i j k) (a_data a) 0.

Definition tabulate (s : shape) (f : nat -> nat -> nat -> Qc) : list Qc :=
  let '(nx, ny, nz) := s in
  flat_map (fun i =>
    flat_map (fun j => map (fun k => f i j k) (seq 0 nz)) (seq 0 ny))
    (seq 0 nx).

(** *** Broadcasting *)

Definition bdim (m n : nat) : option nat :=
  if (m =? n)%nat then Some m
  else if (m =? 1)%nat then Some n
  else if (n =? 1)%nat then Some m
  else None.

Definition bshape (s t : shape) : option shape :=
  let '(a1, a2, a3) := s in
  let '(b1, b2, b3) := t in
  match bdim a1 b1, bdim a2 b2, bdim a3 b3 with
  | Some c1, Some c2, Some c3 => Some (c1, c2, c3)
  | _, _, _ => None
  end.

Definition shape_eqb (s t : shape) : bool :=
  let '(a1, a2, a3) := s in
  let '(b1, b2, b3) := t in
  (a1 =? b1)%nat && (a2 =? b2)%nat && (a3 =? b3)%nat.

(** The entries of [a] stretched to shape [s]: an axis of length 1 is read
    at index 0 throughout. *)
Definition stretch (a : Array) (s : shape) : list Qc :=
  if shape_eqb (a_shape a) s then a_data a
  else
    let '(n1, n2, n3) := a_shape a in
    tabulate s (fun i j k =>
      get a (if (n1 =? 1)%nat then 0%nat else i)
            (if (n2 =? 1)%nat then 0%nat else j)
            (if (n3 =? 1)%nat then 0%nat else k)).

(** [a op b] for a total scalar operation. *)
Definition broadcast2 (f : Qc -> Qc -> Qc) (a b : Array) : result Array :=
  match bshape (a_shape a) (a_shape b) with
  | Some s => Ok (mkArray s (zip_with f (stretch a s) (stretch b s)))
  | None => Err ValueError
  end.

Definition arr_add : Array -> Array -> result Array := broadcast2 Qcplus.
Definition arr_sub : Array -> Array -> result Array := broadcast2 Qcminus.

Definition Qc_is_zero (q : Qc) : bool := if Qc_eq_dec q 0 then true else false.

(** [a / b]: undefined as soon as one denominator is zero. *)
Definition arr_div (a b : Array) : result Array :=
  match bshape (a_shape a) (a_shape b) with
  | Some s =>
      if existsb Qc_is_zero (stretch b s) then Err ZeroDivision
      else Ok (mkArray s (zip_with Qcdiv (stretch a s) (stretch b s)))
  | None => Err ValueError
  end.

(** [c * a] for a scalar [c]. *)
Definition arr_scale (c : Qc) (a : Array) : Array :=
  mkArray (a_shape a) (map (Qcmult c) (a_data a)).

(** [num / den] on scalars. *)
Definition sdiv (num den : Qc) : result Qc :=
  if Qc_is_zero den then Err ZeroDivision else Ok (num / den).

(** [t[:,:,:] = v]: the target keeps its shape, [v] is broadcast to it. *)
Definition assign (t v : Array) : result Array :=
  if decide (bshape (a_shape t) (a_shape v) = Some (a_shape t))
  then Ok (mkArray (a_shape t) (stretch v (a_shape t)))
  else Err ValueError.

(** [t[:,:,:] += v] and [t[:,:,:] -= v]: in place, so [v] must broadcast to
    the shape of [t]. *)
Definition inplace2 (f : Qc -> Qc -> Qc) (t v : Array) : result Array :=
  if decide (bshape (a_shape t) (a_shape v) = Some (a_shape t))
  then Ok (mkArray (a_shape t) (zip_with f (a_data t) (stretch v (a_shape t))))
  else Err ValueError.

Definition arr_iadd : Array -> Array -> result Array := inplace2 Qcplus.
Definition arr_isub : Array -> Array -> result Array := inplace2 Qcminus.

(** [range(lo, hi)] *)
Definition range (lo hi : Z) : list Z :=
  map (fun k => (lo + Z.of_nat k)%Z) (seq 0 (Z.to_nat (hi - lo))).

(** ** Constants, fields and operators *)

(** Positions of a variable on the grid ([pyns.constants]: C, X, Y, Z and N
    for nodal). *)
Module Position.
Inductive t : Type := C | X | Y | Z | N.
Definition eqb (p q : t) : bool :=
  match p, q with
  | C, C | X, X | Y, Y | Z, Z | N, N => true
  | _, _ => false
  end.
End Position.

(** The six faces ([pyns.constants]: W, E, S, N, B, T). *)
Module Compass.
Inductive t : Type := W | E | S | N | B | T.
End Compass.

(** One boundary condition: its type codes and its values, both arrays. *)
Module Bnd.
Record t (A : Type) : Type := mk { typ : A; val : A }.
Arguments mk {A} typ val.
Arguments typ {A} _.
Arguments val {A} _.
End Bnd.

(** An object of class [Unknown]; [A] is [loc] for the object as the caller
    holds it (its arrays are references) and [Array] for its contents. *)
Record Unknown (A : Type) : Type := mkUnknown {
  name : string;
  pos : Position.t;
  val : A;
  old : A;
  bnd : Compass.t -> Bnd.t A;
  per : bool * bool * bool
}.
Arguments mkUnknown {A} name pos val old bnd per.
Arguments name {A} _.
Arguments pos {A} _.
Arguments val {A} _.
Arguments old {A} _.
Arguments bnd {A} _ _.
Arguments per {A} _.

(** An object of class [Matrix]: the central coefficient and the six
    neighbour coefficients. *)
Module Matrix.
Record t (A : Type) : Type := mk { C : A; W : A; E : A; S : A; N : A; B : A; T : A }.
Arguments mk {A} C W E S N B T.
Arguments C {A} _.
Arguments W {A} _.
Arguments E {A} _.
Arguments S {A} _.
Arguments N {A} _.
Arguments B {A} _.
Arguments T {A} _.
End Matrix.

(** ** The store *)

Definition loc : Type := nat.
Abbreviation store := (gmap loc Array).

Definition load (s : store) (l : loc) : result Array :=
  match s !! l with
  | Some a => Ok a
  | None => Err Dangling
  end.

Definition load_bnd (s : store) (c : Bnd.t loc) : result (Bnd.t Array) :=
  do t <- load s (Bnd.typ c);
  do v <- load s (Bnd.val c);
  Ok (Bnd.mk t v).

Definition load_unknown (s : store) (u : Unknown loc) : result (Unknown Array) :=
  do v <- load s (val u);
  do o <- load s (old u);
  do bW <- load_bnd s (bnd u Compass.W);
  do bE <- load_bnd s (bnd u Compass.E);
  do bS <- load_bnd s (bnd u Compass.S);
  do bN <- load_bnd s (bnd u Compass.N);
  do bB <- load_bnd s (bnd u Compass.B);
  do bT <- load_bnd s (bnd u Compass.T);
  Ok (mkUnknown (name u) (pos u) v o
        (fun f => match f with
                  | Compass.W => bW | Compass.E => bE
                  | Compass.S => bS | Compass.N => bN
                  | Compass.B => bB | Compass.T => bT
                  end)
        (per u)).

Definition load_matrix (s : store) (a : Matrix.t loc) : result (Matrix.t Array) :=
  do c <- load s (Matrix.C a);
  do w <- load s (Matrix.W a);
  do e <- load s (Matrix.E a);
  do s0 <- load s (Matrix.S a);
  do n <- load s (Matrix.N a);
  do b <- load s (Matrix.B a);
  do t <- load s (Matrix.T a);
  Ok (Matrix.mk c w e s0 n b t).

(** [p.val[:,:,:] = ...] on a local object. *)
Definition with_val (u : Unknown Array) (v : Array) : Unknown Array :=
  mkUnknown (name u) (pos u) v (old u) (bnd u) (per u).

(** ** [cg]: pyns/solvers/nonstationary/cg.py *)

(** The names a run of the loop carries from one iteration to the next.
    [p], [q], [r] and [z] are arrays that [cg] creates itself and never hands
    out, so they are values of the loop; [rho_old] is unbound until the first
    iteration has finished. *)
Record Locals : Type := mkLocals {
  l_p : Unknown Array;
  l_q : Array;
  l_r : Array;
  l_z : Array;
  l_rho_old : option Qc
}.

(** How one pass through the loop body ends. *)
Inductive Flow : Type :=
| Return (x : loc)
| Next (l : Locals).

Section Cg.

(** The sister modules [mat_vec_bnd], [vec_vec], [norm] and the class
    [Unknown] are imported by cg.py. [norm] returns a square root, which
    the rationals do not have: its result type and the comparison
    [res < tol] stay abstract here and are made exact in [Surd] below. *)
Variable mat_vec_bnd : Matrix.t Array -> Unknown Array -> result Array.
Variable vec_vec : Array -> Array -> result Qc.
Variable Res : Type.
Variable norm : Array -> result Res.
Variable res_lt : Res -> Qc -> bool.
Variable Unknown_new :
  string -> Position.t -> shape -> Z -> bool * bool * bool -> Unknown Array.

(** Lines 46-55: the helping variable, the work arrays and the initial
    residual. *)
Definition cg_init (a : Matrix.t loc) (phi : Unknown loc) (b : loc)
    (s : store) : result Locals :=
  (* Helping variable *)
  let x := val phi in
  do xv <- load s x;
  (* Intitilize arrays *)
  let p := Unknown_new "vec_p" (pos phi) (a_shape xv) (-1) (per phi) in
  let q := zeros (a_shape xv) in
  let r := zeros (a_shape xv) in
  let z := zeros (a_shape xv) in
  (* r = b - A * x *)
  do bv <- load s b;
  do av <- load_matrix s a;
  do phiv <- load_unknown s phi;
  do Ax <- mat_vec_bnd av phiv;
  do d <- arr_sub bv Ax;
  do r <- assign r d;
  Ok (mkLocals p q r z None).

(** Lines 68-69, solve M z = r: [z[:,:,:] = r[:,:,:] / a.C[:,:,:]]. *)
Definition precondition (l : Locals) (aC : Array) : result Array :=
  do d <- arr_div (l_r l) aC;
  assign (l_z l) d.

(** Reading [rho_old]. *)
Definition read_rho_old (l : Locals) : result Qc :=
  match l_rho_old l with
  | Some v => Ok v
  | None => Err NameError
  end.

(** Lines 74-83, the new contents of [p.val]. *)
Definition direction (i : Z) (l : Locals) (z : Array) (rho : Qc) : result Array :=
  if (i =? 1)%Z then
    (* p = z *)
    assign (val (l_p l)) z
  else
    (* beta = rho / rho_old *)
    do rho_old <- read_rho_old l;
    do beta <- sdiv rho rho_old;
    (* p = z + beta p *)
    do t <- arr_add z (arr_scale beta (val (l_p l)));
    assign (val (l_p l)) t.

(** Lines 68-98: one pass up to and including [res = norm(r)]. It yields
    the work arrays, this iteration's [rho], the residual norm and the
    store with [x] updated; [rho_old] is not yet rebound. *)
Definition cg_update (a : Matrix.t loc) (x : loc) (i : Z) (l : Locals)
    (s : store) : result (Locals * Qc * Res * store) :=
  (* Solve M z = r *)
  do aC <- load s (Matrix.C a);
  do z <- precondition l aC;
  (* rho = r * z *)
  do rho <- vec_vec (l_r l) z;
  do pv <- direction i l z rho;
  let p := with_val (l_p l) pv in
  (* q = A * p *)
  do av <- load_matrix s a;
  do Ap <- mat_vec_bnd av p;
  do q <- assign (l_q l) Ap;
  (* alfa = rho / (p * q) *)
  do pq <- vec_vec (val p) q;
  do alfa <- sdiv rho pq;
  (* x = x + alfa p *)
  do xv <- load s x;
  do xv' <- arr_iadd xv (arr_scale alfa (val p));
  let s' := <[x := xv']> s in
  (* r = r - alfa q *)
  do r <- arr_isub (l_r l) (arr_scale alfa q);
  (* Compute residual *)
  do res <- norm r;
  Ok (mkLocals p q r z (l_rho_old l), rho, res, s').

(** The body of the loop (lines 65-108) at iteration [i]. *)
Definition cg_body (a : Matrix.t loc) (x : loc) (tol : Qc) (i : Z)
    (l : Locals) (s : store) : result (Flow * store) :=
  do u <- cg_update a x i l s;
  match u with
  | (l', rho, res, s') =>
      (* If tolerance has been reached, get out of here *)
      if res_lt res tol then Ok (Return x, s')
      else
        (* Prepare for next iteration *)
        Ok (Next (mkLocals (l_p l') (l_q l') (l_r l') (l_z l') (Some rho)), s')
  end.

(** [for i in range(1, max_iter): ...] followed by the final [return x]. *)
Fixpoint cg_loop (a : Matrix.t loc) (x : loc) (tol : Qc) (idx : list Z)
    (l : Locals) (s : store) : result (loc * store) :=
  match idx with
  | [] => Ok (x, s)
  | i :: idx' =>
      do fs <- cg_body a x tol i l s;
      match fs with
      | (Return v, s') => Ok (v, s')
      | (Next l', s') => cg_loop a x tol idx' l' s'
      end
  end.

(** The iteration cap (lines 60-61); [shp] is [phi.val.shape]. *)
Definition cap (max_iter : Z) (shp : shape) : Z :=
  if (max_iter =? -1)%Z then prod shp else max_iter.

(** [cg(a, phi, b, tol, verbose, max_iter)]. What [verbose] prints on the
    console is left out. The result is the returned reference together
    with the store the call leaves behind. *)
Definition cg (a : Matrix.t loc) (phi : Unknown loc) (b : loc) (tol : Qc)
    (verbose : bool) (max_iter : Z) (s : store) : result (loc * store) :=
  do l <- cg_init a phi b s;
  do xv <- load s (val phi);
  cg_loop a (val phi) tol (range 1 (cap max_iter (a_shape xv))) l s.

(** *** The recurrence as the specification words it (section 4.3, steps
    2 to 5), on plain values: no work arrays, no slices, no store. [first]
    says whether this is the first iteration, [rho_previous] is the [rho]
    of the iteration before. *)
Definition pcg_iteration (av : Matrix.t Array) (field : Unknown Array)
    (first : bool) (x r p : Array) (rho_previous : option Qc)
    : result (Array * Array * Array * Array * Qc) :=
  (* 2. z = r / A.center elementwise *)
  do z <- arr_div r (Matrix.C av);
  do rho <- vec_vec r z;
  (* 3. p = z, or beta = rho / rho_previous; p = z + beta * p *)
  do p' <- (if first then Ok z
            else
              match rho_previous with
              | Some rho_prev =>
                  do beta <- sdiv rho rho_prev;
                  arr_add z (arr_scale beta p)
              | None => Err NameError
              end);
  (* 4. q = apply(A, p); alpha = rho / vec_vec(p, q) *)
  do q <- mat_vec_bnd av (with_val field p');
  do pq <- vec_vec p' q;
  do alpha <- sdiv rho pq;
  (* 5. x += alpha * p; r -= alpha * q *)
  do x' <- arr_add x (arr_scale alpha p');
  do r' <- arr_sub r (arr_scale alpha q);
  Ok (x', r', p', q, rho).

(** The states in which [cg], called on [(a, phi, b, tol, max_iter)] in
    store [s0], stands at the head of its loop: the indices still to run,
    the locals and the store. *)
Inductive AtLoopHead (a : Matrix.t loc) (phi : Unknown loc) (b : loc)
    (tol : Qc) (max_iter : Z) (s0 : store)
    : list Z -> Locals -> store -> Prop :=
| head_first l xv :
    cg_init a phi b s0 = Ok l ->
    load s0 (val phi) = Ok xv ->
    AtLoopHead a phi b tol max_iter s0
      (range 1 (cap max_iter (a_shape xv))) l s0
| head_next i idx l s l' s' :
    AtLoopHead a phi b tol max_iter s0 (i :: idx) l s ->
    cg_body a (val phi) tol i l s = Ok (Next l', s') ->
    AtLoopHead a phi b tol max_iter s0 idx l' s'.

(** The iterations [idx] all ran, from [(l, s)] to [(l', s')], and none of
    them found the residual norm below [tol]. *)
Inductive Unconverged (a : Matrix.t loc) (x : loc) (tol : Qc)
    : list Z -> Locals -> store -> Locals -> store -> Prop :=
| unconv_nil l s : Unconverged a x tol [] l s l s
| unconv_cons i idx l s l1 rho res s1 l2 s2 :
    cg_update a x i l s = Ok (l1, rho, res, s1) ->
    res_lt res tol = false ->
    Unconverged a x tol idx
      (mkLocals (l_p l1) (l_q l1) (l_r l1) (l_z l1) (Some rho)) s1 l2 s2 ->
    Unconverged a x tol (i :: idx) l s l2 s2.

End Cg.

(** ** The sister modules, from the specification *)

Definition Qc_ltb (x y : Qc) : bool := if Qclt_le_dec x y then true else false.

Definition qsum (l : list Qc) : Qc := fold_right Qcplus 0 l.

(** Modelled from the spec: [pyns/solvers/vec_vec.py] is not among the
    sources. "Sum of element-wise product over all interior cells"; a shape
    mismatch is an error. *)
Definition vec_vec_spec (a b : Array) : result Qc :=
  if shape_eqb (a_shape a) (a_shape b)
  then Ok (qsum (zip_with Qcmult (a_data a) (a_data b)))
  else Err ValueError.

(** Modelled from the spec: what [norm] returns, the non-negative square
    root of [radicand], kept as its radicand because the root is in general
    not rational. *)
Record Surd : Type := mkSurd { radicand : Qc }.

(** Modelled from the spec: [pyns/solvers/norm.py] is not among the sources.
    "Square root of vec_vec(a, a)". *)
Definition norm_spec (a : Array) : result Surd :=
  do s <- vec_vec_spec a a;
  Ok (mkSurd s).

(** Modelled from the spec: [res < tol] for [res = norm(r)], that is
    [sqrt(radicand) < tol], decided on the rationals: the tolerance is
    positive and its square exceeds the radicand ([surd_lt_root] below). *)
Definition surd_lt (r : Surd) (tol : Qc) : bool :=
  Qc_ltb 0 tol && Qc_ltb (radicand r) (tol * tol).

(** Modelled from the spec: "boundary arrays' shapes are always the 2D
    cross-section orthogonal to their face's axis"; tecplot.py slices them
    as three-dimensional arrays, one cell thick along that axis. *)
Definition face_shape (f : Compass.t) (s : shape) : shape :=
  let '(nx, ny, nz) := s in
  match f with
  | Compass.W | Compass.E => (1%nat, ny, nz)
  | Compass.S | Compass.N => (nx, 1%nat, nz)
  | Compass.B | Compass.T => (nx, ny, 1%nat)
  end.

(** Modelled from the spec: the class [Unknown] of [pyns/discretization] is
    not among the sources. A new field has the given position and shape, a
    value and a previous-value array, and on each face a boundary condition
    of the default type with a value array of the face's cross-section. The
    specification does not say what the arrays hold at first; zero is taken
    here. *)
Definition Unknown_spec (nm : string) (ps : Position.t) (res : shape)
    (def_bc : Z) (pr : bool * bool * bool) : Unknown Array :=
  mkUnknown nm ps (zeros res) (zeros res)
    (fun f =>
       Bnd.mk (mkArray (face_shape f res)
                 (repeat (Q2Qc (inject_Z def_bc)) (size (face_shape f res))))
              (zeros (face_shape f res)))
    pr.

Section Apply.

(** [nbv phi f i j k] is the value the stencil sees next to cell [(i,j,k)]
    in direction [f]: the field's own value at the neighbouring cell, or at
    the edge of the grid the value that the boundary condition of face [f]
    yields (section 4.1 of the specification). *)
Variable nbv : Unknown Array -> Compass.t -> nat -> nat -> nat -> Qc.

(** Modelled from the spec: the entry of [mat_vec_bnd(a, phi)] at cell
    [(i,j,k)]. *)
Definition stencil (a : Matrix.t Array) (phi : Unknown Array) (i j k : nat) : Qc :=
  get (Matrix.C a) i j k * get (val phi) i j k
  + (get (Matrix.W a) i j k * nbv phi Compass.W i j k
     + (get (Matrix.E a) i j k * nbv phi Compass.E i j k
        + (get (Matrix.S a) i j k * nbv phi Compass.S i j k
           + (get (Matrix.N a) i j k * nbv phi Compass.N i j k
              + (get (Matrix.B a) i j k * nbv phi Compass.B i j k
                 + get (Matrix.T a) i j k * nbv phi Compass.T i j k))))).

(** Modelled from the spec: the seven coefficient arrays are "all shaped
    like the field they act on". *)
Definition same_shapes (a : Matrix.t Array) (s : shape) : bool :=
  shape_eqb (a_shape (Matrix.C a)) s && shape_eqb (a_shape (Matrix.W a)) s
  && shape_eqb (a_shape (Matrix.E a)) s && shape_eqb (a_shape (Matrix.S a)) s
  && shape_eqb (a_shape (Matrix.N a)) s && shape_eqb (a_shape (Matrix.B a)) s
  && shape_eqb (a_shape (Matrix.T a)) s.

(** Modelled from the spec: [pyns/solvers/mat_vec_bnd.py] is not among the
    sources. "For every interior cell, the result is center*value plus the
    sum over the directions of coeff*neighbor_value", as a fresh array
    shaped like the field's value; a shape mismatch is an error. *)
Definition mat_vec_bnd_spec (a : Matrix.t Array) (phi : Unknown Array) : result Array :=
  let s := a_shape (val phi) in
  if same_shapes a s
  then Ok (mkArray s (tabulate s (stencil a phi)))
  else Err ValueError.

End Apply.

(** Modelled from the spec: the neighbour value for a field all of whose
    faces are Dirichlet, inside the grid the neighbouring cell, at the edge
    the prescribed boundary value. It serves in the examples. *)
Definition nbv_dirichlet (phi : Unknown Array) (f : Compass.t) (i j k : nat) : Qc :=
  let '(nx, ny, nz) := a_shape (val phi) in
  let bv := Bnd.val (bnd phi f) in
  match f with
  | Compass.W => if (i =? 0)%nat then get bv 0 j k else get (val phi) (i - 1) j k
  | Compass.E => if (S i =? nx)%nat then get bv 0 j k else get (val phi) (S i) j k
  | Compass.S => if (j =? 0)%nat then get bv i 0 k else get (val phi) i (j - 1) k
  | Compass.N => if (S j =? ny)%nat then get bv i 0 k else get (val phi) i (S j) k
  | Compass.B => if (k =? 0)%nat then get bv i j 0 else get (val phi) i j (k - 1)
  | Compass.T => if (S k =? nz)%nat then get bv i j 0 else get (val phi) i j (S k)
  end.

(** [cg] with the sister modules as the specification describes them. *)
Definition cg_spec (nbv : Unknown Array -> Compass.t -> nat -> nat -> nat -> Qc) :=
  cg (mat_vec_bnd_spec nbv) vec_vec_spec Surd norm_spec surd_lt Unknown_spec.

(** ** [tecplot]: pyns/display/plot/tecplot.py *)

(** The named tuple [key] of line 55; [bnd] is [None] for a plain array. *)
Module Key.
Record t : Type := mk {
  name : string;
  pos : Position.t;
  val : Array;
  bnd : option (Compass.t -> Bnd.t Array)
}.
End Key.

(** A tracer particle: [p.x], [p.y], [p.z], [p.u], [p.v], [p.w]. *)
Module Tracer.
Record t : Type := mk { x : Qc; y : Qc; z : Qc; u : Qc; v : Qc; w : Qc }.
End Tracer.

Definition nl : string := String (ascii_of_nat 10) EmptyString.
Definition dq : string := String (ascii_of_nat 34) EmptyString.

(** ["%d" % n] *)
Definition fmt_d (n : Z) : string := NilZero.string_of_int (Z.to_int n).

(** ["%2.2d" % c] for a count [c]: at least two digits. *)
Definition fmt_2d (c : nat) : string :=
  if (c <? 10)%nat then ("0" ++ fmt_d (Z.of_nat c))%string else fmt_d (Z.of_nat c).

(** [a[i,j,k]] with the bounds check of numpy, for indices from [range]. *)
Definition item (a : Array) (i j k : nat) : result Qc :=
  let '(n1, n2, n3) := a_shape a in
  if (i <? n1)%nat && (j <? n2)%nat && (k <? n3)%nat
  then Ok (get a i j k) else Err IndexError.

(** [l[i]] on a one-dimensional array of coordinates. *)
Definition coord (l : list Qc) (i : nat) : result Qc :=
  match nth_error l i with
  | Some v => Ok v
  | None => Err IndexError
  end.

(** The slices [a[:1,:,:]], [a[:,:1,:]] and [a[:,:,:1]]. *)
Definition first_x (a : Array) : Array :=
  let '(n1, n2, n3) := a_shape a in
  let s := (Nat.min 1 n1, n2, n3) in mkArray s (tabulate s (get a)).
Definition first_y (a : Array) : Array :=
  let '(n1, n2, n3) := a_shape a in
  let s := (n1, Nat.min 1 n2, n3) in mkArray s (tabulate s (get a)).
Definition first_z (a : Array) : Array :=
  let '(n1, n2, n3) := a_shape a in
  let s := (n1, n2, Nat.min 1 n3) in mkArray s (tabulate s (get a)).

Fixpoint sequence {A : Type} (l : list (result A)) : result (list A) :=
  match l with
  | [] => Ok []
  | m :: l' => do a <- m; do r <- sequence l'; Ok (a :: r)
  end.

(** The values one block visits: [k] outermost, then [j], then [i]. *)
Definition sweep (ni nj nk : Z) (f : nat -> nat -> nat -> result Qc) : result (list Qc) :=
  sequence
    (flat_map (fun k =>
       flat_map (fun j =>
         map (fun i => f (Z.to_nat i) (Z.to_nat j) (Z.to_nat k)) (range 0 ni))
         (range 0 nj))
       (range 0 nk)).

Section Tecplot.

(** ["%12.5e" % v]: how C prints a float is not modelled. *)
Variable fmt_e : Qc -> string.

(** [avg_x], [cat_x] and their likes come from [pyns.operators]. *)
Variable avg_x avg_y avg_z : Array -> result Array.
Variable cat_x cat_y cat_z : list Array -> result Array.

(** Number of columns in the output file *)
Definition col : nat := 10.

(** Lines 136-145 and their copies: the values of one block, ten to a
    line, started at column count [c]. *)
Fixpoint write_values (c : nat) (vs : list Qc) : string * nat :=
  match vs with
  | [] => (EmptyString, c)
  | v :: vs' =>
      let c' := S c in
      let '(rest, cf) := write_values c' vs' in
      ((fmt_e v ++ " "
        ++ (if (c' mod col =? 0)%nat then nl else EmptyString) ++ rest)%string,
       cf)
  end.

Definition write_block (vs : list Qc) : string :=
  let '(out, c) := write_values 0 vs in
  (* finish the line if necessary *)
  (out ++ (if (c mod col =? 0)%nat then EmptyString else nl))%string.

(** Lines 59-61. *)
Definition key_of_unknown (u : Unknown Array) : Key.t :=
  Key.mk (name u) (pos u) (val u) (Some (bnd u)).

(** Lines 68-77: the position of an array is read off its shape. *)
Definition array_pos (nx ny nz : Z) (a : Array) : Position.t :=
  let '(n1, n2, n3) := a_shape a in
  let ax := Z.of_nat n1 in
  let ay := Z.of_nat n2 in
  let az := Z.of_nat n3 in
  (* first assume central, then prove otherwise ;-) *)
  let pos := Position.C in
  let pos := if (ax =? nx - 1)%Z && (ay =? ny)%Z && (az =? nz)%Z
             then Position.X else pos in
  let pos := if (ax =? nx)%Z && (ay =? ny - 1)%Z && (az =? nz)%Z
             then Position.Y else pos in
  let pos := if (ax =? nx)%Z && (ay =? ny)%Z && (az =? nz - 1)%Z
             then Position.Z else pos in
  let pos := if (ax =? nx + 1)%Z && (ay =? ny + 1)%Z && (az =? nz + 1)%Z
             then Position.N else pos in
  pos.

(** Lines 64-81, from count [c] on. *)
Fixpoint keys_of_arrays (nx ny nz : Z) (c : nat) (arrays : list Array) : list Key.t :=
  match arrays with
  | [] => []
  | a :: rest =>
      Key.mk ("pyns-var-" ++ fmt_2d c)%string (array_pos nx ny nz a) a None
      :: keys_of_arrays nx ny nz (S c) rest
  end.

Definition analyze (nx ny nz : Z) (unknowns : list (Unknown Array))
    (arrays : list Array) : list Key.t :=
  map key_of_unknown unknowns ++ keys_of_arrays nx ny nz 0 arrays.

Definition is_nodal (k : Key.t) : bool := Position.eqb (Key.pos k) Position.N.

(** Lines 84-90. *)
Definition c_nod (vars : list Key.t) : nat := length (filter (fun k => is_nodal k = true) vars).
Definition c_cel (vars : list Key.t) : nat := length (filter (fun k => is_nodal k = false) vars).

Definition quoted (nm : string) : string := (dq ++ nm ++ dq ++ " ")%string.

(** Lines 106-125: the file header. *)
Definition header (nx ny nz : Z) (vars : list Key.t) : string :=
  ("title=" ++ dq ++ "PyNS Output" ++ dq ++ nl
   ++ "VARIABLES = " ++ dq ++ "x" ++ dq ++ " " ++ dq ++ "y" ++ dq ++ " "
   ++ dq ++ "z" ++ dq
   (* First names of the nodal variables *)
   ++ String.concat EmptyString
        (map (fun k => if is_nodal k then quoted (Key.name k) else EmptyString) vars)
   (* Then names of the cell centered variables *)
   ++ String.concat EmptyString
        (map (fun k => if is_nodal k then EmptyString else quoted (Key.name k)) vars)
   ++ nl
   ++ "ZONE " ++ nl
   ++ "I=" ++ fmt_d (nx + 1) ++ " J=" ++ fmt_d (ny + 1)
   ++ " K=" ++ fmt_d (nz + 1) ++ nl
   ++ "DATAPACKING = BLOCK" ++ nl
   ++ "VARLOCATION=([1-" ++ fmt_d (3 + Z.of_nat (c_nod vars)) ++ "]=NODAL "
   ++ "[" ++ fmt_d (4 + Z.of_nat (c_nod vars)) ++ "-"
   ++ fmt_d (3 + Z.of_nat (c_nod vars) + Z.of_nat (c_cel vars))
   ++ "]=CELLCENTERED)" ++ nl)%string.

(** Lines 132-170: the nodal coordinates. *)
Definition coordinates (nx ny nz : Z) (xn yn zn : list Qc) : result string :=
  do xs <- sweep (nx + 1) (ny + 1) (nz + 1) (fun i _ _ => coord xn i);
  do ys <- sweep (nx + 1) (ny + 1) (nz + 1) (fun _ j _ => coord yn j);
  do zs <- sweep (nx + 1) (ny + 1) (nz + 1) (fun _ _ k => coord zn k);
  Ok (write_block xs ++ write_block ys ++ write_block zs)%string.

(** Lines 181-191: one nodal variable; others are passed over here. *)
Definition nodal_variable (nx ny nz : Z) (k : Key.t) : result string :=
  if is_nodal k then
    do vs <- sweep (nx + 1) (ny + 1) (nz + 1) (item (Key.val k));
    Ok (write_block vs)
  else Ok EmptyString.

(** [vars[v].bnd[f]] *)
Definition key_bnd (k : Key.t) (f : Compass.t) : result (Bnd.t Array) :=
  match Key.bnd k with
  | Some b => Ok (b f)
  | None => Err TypeError
  end.

(** Lines 200-213: average values to be written for staggered variables.
    The position is not [N] here. *)
Definition cell_values (k : Key.t) : result Array :=
  match Key.pos k with
  | Position.C => Ok (Key.val k)
  | Position.N => Ok (Key.val k)   (* not reached: [pos != N] guards it *)
  | Position.X =>
      do lo <- key_bnd k Compass.W;
      do hi <- key_bnd k Compass.E;
      do c <- cat_x [first_x (Bnd.val lo); Key.val k; first_x (Bnd.val hi)];
      avg_x c
  | Position.Y =>
      do lo <- key_bnd k Compass.S;
      do hi <- key_bnd k Compass.N;
      do c <- cat_y [first_y (Bnd.val lo); Key.val k; first_y (Bnd.val hi)];
      avg_y c
  | Position.Z =>
      do lo <- key_bnd k Compass.B;
      do hi <- key_bnd k Compass.T;
      do c <- cat_z [first_z (Bnd.val lo); Key.val k; first_z (Bnd.val hi)];
      avg_z c
  end.

(** Lines 198-226: one cell-centered variable; nodal ones are passed over. *)
Definition cell_variable (nx ny nz : Z) (k : Key.t) : result string :=
  if is_nodal k then Ok EmptyString
  else
    do val <- cell_values k;
    do vs <- sweep nx ny nz (item val);
    Ok (write_block vs).

(** Lines 236-259: the tracers. *)
Definition tracer_line (p : Tracer.t) : string :=
  (fmt_e (Tracer.x p) ++ " " ++ fmt_e (Tracer.y p) ++ " "
   ++ fmt_e (Tracer.z p) ++ " " ++ fmt_e (Tracer.u p) ++ " "
   ++ fmt_e (Tracer.v p) ++ " " ++ fmt_e (Tracer.w p) ++ " " ++ nl)%string.

Definition tracer_zone (tracers : list Tracer.t) : string :=
  let np := length tracers in
  if (0 <? np)%nat then
    ("ZONE" ++ nl
     ++ "I=" ++ fmt_d (Z.of_nat np) ++ " J=" ++ fmt_d 1 ++ " K=" ++ fmt_d 1 ++ nl
     ++ "DATAPACKING = POINT" ++ nl
     ++ "VARLOCATION=([1-6]=NODAL)" ++ nl
     ++ String.concat EmptyString (map tracer_line tracers))%string
  else EmptyString.

(** [tecplot(file_name, xyzn, unknowns, arrays, tracers)]: the name of the
    file it writes and the text written. The function only reads its
    arguments, which are given by their contents. *)
Definition tecplot (file_name : string) (xyzn : list Qc * list Qc * list Qc)
    (unknowns : list (Unknown Array)) (arrays : list Array)
    (tracers : list Tracer.t) : result (string * string) :=
  let '(xn, yn, zn) := xyzn in
  (* Compute cell resolutions *)
  let nx := (Z.of_nat (length xn) - 1)%Z in
  let ny := (Z.of_nat (length yn) - 1)%Z in
  let nz := (Z.of_nat (length zn) - 1)%Z in
  let vars := analyze nx ny nz unknowns arrays in
  let head := header nx ny nz vars in
  do crd <- coordinates nx ny nz xn yn zn;
  do nod <- sequence (map (nodal_variable nx ny nz) vars);
  do cel <- sequence (map (cell_variable nx ny nz) vars);
  Ok ((file_name ++ ".plt")%string,
      (head ++ crd ++ String.concat EmptyString nod
       ++ String.concat EmptyString cel ++ tracer_zone tracers)%string).

End Tecplot.

(** ** Predicates for the statements *)

(** The work arrays, the array at [x] and the central coefficients all have
    shape [sh]. *)
Definition shapes_ok (sh : shape) (a : Matrix.t loc) (x : loc) (l : Locals)
    (s : store) : Prop :=
  a_shape (l_r l) = sh /\ a_shape (l_z l) = sh /\ a_shape (l_q l) = sh
  /\ (exists xv, load s x = Ok xv /\ a_shape xv = sh)
  /\ (exists aC, load s (Matrix.C a) = Ok aC /\ a_shape aC = sh).



(** ** Small systems for the examples *)

Definition qz (n : Z) : Qc := Q2Qc (inject_Z n).

Definition face_index (f : Compass.t) : nat :=
  match f with
  | Compass.W => 0%nat | Compass.E => 1%nat | Compass.S => 2%nat
  | Compass.N => 3%nat | Compass.B => 4%nat | Compass.T => 5%nat
  end.

(** A cell-centred field whose arrays sit at locations 0 ([val]), 1 ([old])
    and 2 to 13 (the boundary arrays), an operator at 14 to 20 and a
    right-hand side at 21. *)
Definition demo_phi : Unknown loc :=
  mkUnknown "phi" Position.C 0%nat 1%nat
    (fun f => Bnd.mk (2 + 2 * face_index f)%nat (3 + 2 * face_index f)%nat)
    (false, false, false).

Definition demo_a : Matrix.t loc := Matrix.mk 14%nat 15%nat 16%nat 17%nat 18%nat 19%nat 20%nat.

Definition demo_b : loc := 21%nat.

(** The store of a grid of shape [sh]: initial guess [x0], central
    coefficients [c], west and east coefficients [w] and [e], the other
    coefficients and all boundary values zero, right-hand side [rhs]. *)
Definition demo_store (sh : shape) (x0 c w e : list Qc) (rhs : Array) : store :=
  list_to_map
    ([(0%nat, mkArray sh x0); (1%nat, zeros sh)]
     ++ flat_map (fun f => [((2 + 2 * face_index f)%nat, zeros (face_shape f sh));
                            ((3 + 2 * face_index f)%nat, zeros (face_shape f sh))])
          [Compass.W; Compass.E; Compass.S; Compass.N; Compass.B; Compass.T]
     ++ [(14%nat, mkArray sh c); (15%nat, mkArray sh w); (16%nat, mkArray sh e);
         (17%nat, zeros sh); (18%nat, zeros sh); (19%nat, zeros sh);
         (20%nat, zeros sh); (21%nat, rhs)]).

(** One cell: [2 x = 2], guess 0. *)
Definition one_cell : store :=
  demo_store (1, 1, 1)%nat [qz 0] [qz 2] [qz 0] [qz 0]
    (mkArray (1, 1, 1)%nat [qz 2]).

(** One cell, identity operator, and a guess that is already the solution. *)
Definition solved_cell : store :=
  demo_store (1, 1, 1)%nat [qz 3] [qz 1] [qz 0] [qz 0]
    (mkArray (1, 1, 1)%nat [qz 3]).

(** Two cells along x coupled to each other: the symmetric positive
    definite system [2 x0 + x1 = 1], [x0 + 2 x1 = 0], guess 0. *)
Definition two_cells : store :=
  demo_store (2, 1, 1)%nat [qz 0; qz 0] [qz 2; qz 2] [qz 0; qz 1] [qz 1; qz 0]
    (mkArray (2, 1, 1)%nat [qz 1; qz 0]).


(** Two cells, identity operator, and a right-hand side of one cell only. *)
Definition short_rhs : store :=
  demo_store (2, 1, 1)%nat [qz 0; qz 0] [qz 1; qz 1] [qz 0; qz 0] [qz 0; qz 0]
    (mkArray (1, 1, 1)%nat [qz 5]).

(** Two cells whose second central coefficient is zero. *)
Definition zero_diagonal : store :=
  demo_store (2, 1, 1)%nat [qz 0; qz 0] [qz 2; qz 0] [qz 0; qz 0] [qz 0; qz 0]
    (mkArray (2, 1, 1)%nat [qz 1; qz 1]).

Definition demo_tol : Qc := Q2Qc (1 # 100).

(** [cg] on the small systems: sister modules as specified, all faces
    Dirichlet. *)
Definition demo_cg (max_iter : Z) (s : store) : result (loc * store) :=
  cg_spec nbv_dirichlet demo_a demo_phi demo_b demo_tol false max_iter s.

(** ** Decidable equality, to compare computed results *)

#[global] Instance error_eq_dec : EqDecision error.
Proof. solve_decision. Defined.

#[global] Instance result_eq_dec {A : Type} `{EqDecision A} : EqDecision (result A).
Proof. solve_decision. Defined.

#[global] Instance Array_eq_dec : EqDecision Array.
Proof. solve_decision. Defined.

#[global] Instance Surd_eq_dec : EqDecision Surd.
Proof. solve_decision. Defined.

(** ** [cg] in binary64 arithmetic

    The same program once more, with the entries of the arrays as IEEE 754
    binary64 numbers (numpy's float64) and their operations rounded as the
    machine rounds them. Only the contents of the arrays are followed here:
    [phi] is read once, before [x] is first written, so the alias
    [x = phi.val] plays no part. A division by zero yields an infinity or
    a nan, as numpy has it. *)
Module Binary64.
Import PrimFloat.
Local Open Scope float_scope.

Record Array : Type := mkArray { a_shape : shape; a_data : list float }.

Definition zeros (s : shape) : Array := mkArray s (repeat 0 (size s)).

Definition get (a : Array) (i j k : nat) : float :=
  nth (offset (a_shape a) i j k) (a_data a) 0.

Definition tabulate (s : shape) (f : nat -> nat -> nat -> float) : list float :=
  let '(nx, ny, nz) := s in
  flat_map (fun i =>
    flat_map (fun j => map (fun k => f i j k) (seq 0 nz)) (seq 0 ny))
    (seq 0 nx).

Definition stretch (a : Array) (s : shape) : list float :=
  if shape_eqb (a_shape a) s then a_data a
  else
    let '(n1, n2, n3) := a_shape a in
    tabulate s (fun i j k =>
      get a (if (n1 =? 1)%nat then 0%nat else i)
            (if (n2 =? 1)%nat then 0%nat else j)
            (if (n3 =? 1)%nat then 0%nat else k)).

(** [a op b] *)
Definition broadcast2 (f : float -> float -> float) (a b : Array) : result Array :=
  match bshape (a_shape a) (a_shape b) with
  | Some s => Ok (mkArray s (zip_with f (stretch a s) (stretch b s)))
  | None => Err ValueError
  end.

(** [c * a] for a scalar [c]. *)
Definition arr_scale (c : float) (a : Array) : Array :=
  mkArray (a_shape a) (map (mul c) (a_data a)).

(** [t[:,:,:] = v] *)
Definition assign (t v : Array) : result Array :=
  if decide (bshape (a_shape t) (a_shape v) = Some (a_shape t))
  then Ok (mkArray (a_shape t) (stretch v (a_shape t)))
  else Err ValueError.

(** [t[:,:,:] += v] and [t[:,:,:] -= v] *)
Definition inplace2 (f : float -> float -> float) (t v : Array) : result Array :=
  if decide (bshape (a_shape t) (a_shape v) = Some (a_shape t))
  then Ok (mkArray (a_shape t) (zip_with f (a_data t) (stretch v (a_shape t))))
  else Err ValueError.

Definition with_val (u : Unknown Array) (v : Array) : Unknown Array :=
  mkUnknown (name u) (pos u) v (old u) (bnd u) (per u).

(** The names a run of the loop carries along; [l_x] is the array behind
    [x]. *)
Record Locals : Type := mkLocals {
  l_x : Array;
  l_p : Unknown Array;
  l_q : Array;
  l_r : Array;
  l_z : Array;
  l_rho_old : option float
}.

Section Cg.

Variable mat_vec_bnd : Matrix.t Array -> Unknown Array -> result Array.
Variable vec_vec : Array -> Array -> result float.
Variable norm : Array -> result float.
Variable Unknown_new :
  string -> Position.t -> shape -> Z -> bool * bool * bool -> Unknown Array.

(** Lines 46-55. *)
Definition cg_init (a : Matrix.t Array) (phi : Unknown Array) (b : Array)
    : result Locals :=
  (* Helping variable *)
  let x := val phi in
  (* Intitilize arrays *)
  let p := Unknown_new "vec_p" (pos phi) (a_shape x) (-1) (per phi) in
  let q := zeros (a_shape x) in
  let r := zeros (a_shape x) in
  let z := zeros (a_shape x) in
  (* r = b - A * x *)
  do Ax <- mat_vec_bnd a phi;
  do d <- broadcast2 sub b Ax;
  do r <- assign r d;
  Ok (mkLocals x p q r z None).

(** Lines 68-98: one pass up to and including [res = norm(r)]. *)
Definition cg_update (a : Matrix.t Array) (i : Z) (l : Locals)
    : result (Locals * float * float) :=
  (* Solve M z = r *)
  do d <- broadcast2 div (l_r l) (Matrix.C a);
  do z <- assign (l_z l) d;
  (* rho = r * z *)
  do rho <- vec_vec (l_r l) z;
  do pv <- (if (i =? 1)%Z then
              (* p = z *)
              assign (val (l_p l)) z
            else
              match l_rho_old l with
              | Some rho_old =>
                  (* beta = rho / rho_old *)
                  let beta := rho / rho_old in
                  (* p = z + beta p *)
                  do t <- broadcast2 add z (arr_scale beta (val (l_p l)));
                  assign (val (l_p l)) t
              | None => Err NameError
              end);
  let p := with_val (l_p l) pv in
  (* q = A * p *)
  do Ap <- mat_vec_bnd a p;
  do q <- assign (l_q l) Ap;
  (* alfa = rho / (p * q) *)
  do pq <- vec_vec (val p) q;
  let alfa := rho / pq in
  (* x = x + alfa p *)
  do x <- inplace2 add (l_x l) (arr_scale alfa (val p));
  (* r = r - alfa q *)
  do r <- inplace2 sub (l_r l) (arr_scale alfa q);
  (* Compute residual *)
  do res <- norm r;
  Ok (mkLocals x p q r z (l_rho_old l), rho, res).

(** [for i in range(1, max_iter): ...] followed by the final [return x]. *)
Fixpoint cg_loop (a : Matrix.t Array) (tol : float) (idx : list Z)
    (l : Locals) : result Array :=
  match idx with
  | [] => Ok (l_x l)
  | i :: idx' =>
      do u <- cg_update a i l;
      match u with
      | (l', rho, res) =>
          (* If tolerance has been reached, get out of here *)
          if ltb res tol then Ok (l_x l')
          else
            (* Prepare for next iteration *)
            cg_loop a tol idx'
              (mkLocals (l_x l') (l_p l') (l_q l') (l_r l') (l_z l') (Some rho))
      end
  end.

(** [cg(a, phi, b, tol, verbose, max_iter)]: the contents of the array it
    returns. *)
Definition cg (a : Matrix.t Array) (phi : Unknown Array) (b : Array)
    (tol : float) (verbose : bool) (max_iter : Z) : result Array :=
  do l <- cg_init a phi b;
  cg_loop a tol (range 1 (cap max_iter (a_shape (val phi)))) l.

End Cg.

(** Modelled from the spec: "sum of element-wise product over all interior
    cells". The specification leaves the order of the additions open; the
    entries are added from the last to the first here. *)
Definition vec_vec_spec (a b : Array) : result float :=
  if shape_eqb (a_shape a) (a_shape b)
  then Ok (fold_right add 0 (zip_with mul (a_data a) (a_data b)))
  else Err ValueError.

(** Modelled from the spec: "square root of vec_vec(a, a)". *)
Definition norm_spec (a : Array) : result float :=
  do s <- vec_vec_spec a a;
  Ok (sqrt s).

(** A boundary type code as a double. *)
Fixpoint of_pos (p : positive) : float :=
  match p with
  | xH => 1
  | xO q => 2 * of_pos q
  | xI q => 2 * of_pos q + 1
  end.

Definition of_Z (n : Z) : float :=
  match n with
  | Z0 => 0
  | Zpos p => of_pos p
  | Zneg p => - of_pos p
  end.

(** Modelled from the spec: a new field, as [Unknown_spec] above. *)
Definition Unknown_spec (nm : string) (ps : Position.t) (res : shape)
    (def_bc : Z) (pr : bool * bool * bool) : Unknown Array :=
  mkUnknown nm ps (zeros res) (zeros res)
    (fun f =>
       Bnd.mk (mkArray (face_shape f res)
                 (repeat (of_Z def_bc) (size (face_shape f res))))
              (zeros (face_shape f res)))
    pr.

(** Modelled from the spec: the neighbour values with all faces Dirichlet,
    as [nbv_dirichlet] above. *)
Definition nbv_dirichlet (phi : Unknown Array) (f : Compass.t) (i j k : nat) : float :=
  let '(nx, ny, nz) := a_shape (val phi) in
  let bv := Bnd.val (bnd phi f) in
  match f with
  | Compass.W => if (i =? 0)%nat then get bv 0 j k else get (val phi) (i - 1) j k
  | Compass.E => if (S i =? nx)%nat then get bv 0 j k else get (val phi) (S i) j k
  | Compass.S => if (j =? 0)%nat then get bv i 0 k else get (val phi) i (j - 1) k
  | Compass.N => if (S j =? ny)%nat then get bv i 0 k else get (val phi) i (S j) k
  | Compass.B => if (k =? 0)%nat then get bv i j 0 else get (val phi) i j (k - 1)
  | Compass.T => if (S k =? nz)%nat then get bv i j 0 else get (val phi) i j (S k)
  end.

(** Modelled from the spec: the entry of [mat_vec_bnd(a, phi)] at cell
    [(i,j,k)], "center*value plus the sum over the directions of
    coeff*neighbor_value". *)
Definition stencil (a : Matrix.t Array) (phi : Unknown Array) (i j k : nat) : float :=
  get (Matrix.C a) i j k * get (val phi) i j k
  + (get (Matrix.W a) i j k * nbv_dirichlet phi Compass.W i j k
     + (get (Matrix.E a) i j k * nbv_dirichlet phi Compass.E i j k
        + (get (Matrix.S a) i j k * nbv_dirichlet phi Compass.S i j k
           + (get (Matrix.N a) i j k * nbv_dirichlet phi Compass.N i j k
              + (get (Matrix.B a) i j k * nbv_dirichlet phi Compass.B i j k
                 + get (Matrix.T a) i j k * nbv_dirichlet phi Compass.T i j k))))).

Definition same_shapes (a : Matrix.t Array) (s : shape) : bool :=
  shape_eqb (a_shape (Matrix.C a)) s && shape_eqb (a_shape (Matrix.W a)) s
  && shape_eqb (a_shape (Matrix.E a)) s && shape_eqb (a_shape (Matrix.S a)) s
  && shape_eqb (a_shape (Matrix.N a)) s && shape_eqb (a_shape (Matrix.B a)) s
  && shape_eqb (a_shape (Matrix.T a)) s.

(** Modelled from the spec: [mat_vec_bnd], as [mat_vec_bnd_spec] above. *)
Definition mat_vec_bnd_spec (a : Matrix.t Array) (phi : Unknown Array) : result Array :=
  let s := a_shape (val phi) in
  if same_shapes a s
  then Ok (mkArray s (tabulate s (stencil a phi)))
  else Err ValueError.

(** *** One cell, the identity operator *)

Definition cell (v : float) : Array := mkArray (1, 1, 1)%nat [v].

Definition hundredth : float := 0x1.47ae147ae147bp-7.

(** Centre 1, neighbours 0. *)
Definition identity_cell : Matrix.t Array :=
  Matrix.mk (cell 1) (cell 0) (cell 0) (cell 0) (cell 0) (cell 0) (cell 0).

(** A cell-centred field on one cell holding [v], boundary values 0. *)
Definition field (v : float) : Unknown Array :=
  mkUnknown "phi" Position.C (cell v) (cell 0)
    (fun _ => Bnd.mk (cell 0) (cell 0)) (false, false, false).

Definition demo_cg (guess b : float) (max_iter : Z) : result Array :=
  cg mat_vec_bnd_spec vec_vec_spec norm_spec Unknown_spec
    identity_cell (field guess) (cell b) hundredth false max_iter.

End Binary64.

(** ** What the export writes, for the statements *)

(** One line of the output: every value followed by a blank. *)
Definition row (fmt_e : Qc -> string) (vs : list Qc) : string :=
  fold_right (fun v acc => (fmt_e v ++ " " ++ acc)%string) EmptyString vs.

(** The values of the three coordinate blocks of a grid with nodes [xn],
    [yn], [zn]: node by node, x running fastest. *)
Definition x_block (xn yn zn : list Qc) : list Qc :=
  flat_map (fun _ => flat_map (fun _ => xn) yn) zn.
Definition y_block (xn yn zn : list Qc) : list Qc :=
  flat_map (fun _ => flat_map (fun y => map (fun _ => y) xn) yn) zn.
Definition z_block (xn yn zn : list Qc) : list Qc :=
  flat_map (fun z => flat_map (fun _ => map (fun _ => z) xn) yn) zn.

(** The entries [a[i,j,k]] for [i < nx], [j < ny], [k < nz], x running
    fastest. *)
Definition grid_block (nx ny nz : nat) (a : Array) : list Qc :=
  flat_map (fun k =>
    flat_map (fun j => map (fun i => get a i j k) (seq 0 nx)) (seq 0 ny))
    (seq 0 nz).

(** [a] has at least [nx] by [ny] by [nz] entries. *)
Definition covers (a : Array) (nx ny nz : nat) : Prop :=
  let '(n1, n2, n3) := a_shape a in (nx <= n1 /\ ny <= n2 /\ nz <= n3)%nat.

(** A variable that is nodal and reaches over the nodes of a grid of [nx]
    by [ny] by [nz] cells, or cell-centred and reaching over its cells. *)
Definition fits (nx ny nz : nat) (k : Key.t) : Prop :=
  (Key.pos k = Position.N /\ covers (Key.val k) (S nx) (S ny) (S nz))
  \/ (Key.pos k = Position.C /\ covers (Key.val k) nx ny nz).

(** An array of the shape of the cells or of the nodes of the grid. *)
Definition grid_or_nodes (nx ny nz : nat) (a : Array) : Prop :=
  a_shape a = (nx, ny, nz) \/ a_shape a = (S nx, S ny, S nz).

(** The names the header lists: those of the nodal variables, and those of
    the others, each in the order of the input. *)
Definition nodal_names (vars : list Key.t) : list string :=
  map Key.name (filter (fun k => is_nodal k = true) vars).
Definition cell_names (vars : list Key.t) : list string :=
  map Key.name (filter (fun k => is_nodal k = false) vars).

(** The number a decimal numeral stands for. *)
Definition read_count (s : string) : option nat :=
  match NilZero.int_of_string s with
  | Some d => Some (Z.to_nat (Z.of_int d))
  | None => None
  end.

(** Stand-ins for the examples: a formatter, an averaging and a
    concatenation. *)
Definition demo_fmt (v : Qc) : string := "v".
Definition demo_avg (a : Array) : result Array := Ok a.
Definition demo_cat (l : list Array) : result Array := Err ValueError.

(** * Properties *)

(** ** The result monad *)

Lemma rbind_Ok {A B : Type} (m : result A) (k : A -> result B) (b : B) :
  rbind m k = Ok b -> exists a, m = Ok a /\ k a = Ok b.
Proof. destruct m as [a|e]; simpl; intros H; [eauto | discriminate]. Qed.

(** Break a successful sequence of binds into its steps. *)
Ltac inv_bind H :=
  let a := fresh "v" in
  let Ha := fresh "E" in
  apply rbind_Ok in H; destruct H as (a & Ha & H).

(** ** Shapes and broadcasting *)

Lemma shape_eqb_eq (s t : shape) : shape_eqb s t = true <-> s = t.
Proof.
  destruct s as [[a1 a2] a3], t as [[b1 b2] b3]. unfold shape_eqb.
  rewrite !andb_true_iff, !Nat.eqb_eq. split.
  - intros [[-> ->] ->]. reflexivity.
  - intros [= -> -> ->]. auto.
Qed.

Lemma shape_eqb_refl (s : shape) : shape_eqb s s = true.
Proof. apply shape_eqb_eq. reflexivity. Qed.

Lemma bdim_refl (n : nat) : bdim n n = Some n.
Proof. unfold bdim. rewrite Nat.eqb_refl. reflexivity. Qed.

Lemma bshape_refl (s : shape) : bshape s s = Some s.
Proof. destruct s as [[a1 a2] a3]. simpl. rewrite !bdim_refl. reflexivity. Qed.

Lemma stretch_same (a : Array) (s : shape) : a_shape a = s -> stretch a s = a_data a.
Proof. intros <-. unfold stretch. rewrite shape_eqb_refl. reflexivity. Qed.

Lemma Array_eta (a : Array) : mkArray (a_shape a) (a_data a) = a.
Proof. destruct a. reflexivity. Qed.

Lemma assign_shape (t v r : Array) : assign t v = Ok r -> a_shape r = a_shape t.
Proof. unfold assign. case_decide; intros [= <-]; reflexivity. Qed.

Lemma assign_same (t v : Array) : a_shape v = a_shape t -> assign t v = Ok v.
Proof.
  intros H. unfold assign. rewrite <- H, bshape_refl.
  rewrite decide_True by reflexivity.
  rewrite stretch_same by reflexivity. rewrite Array_eta. reflexivity.
Qed.

Lemma inplace2_shape (f : Qc -> Qc -> Qc) (t v r : Array) :
  inplace2 f t v = Ok r -> a_shape r = a_shape t.
Proof. unfold inplace2. case_decide; intros [= <-]; reflexivity. Qed.

Lemma inplace2_same (f : Qc -> Qc -> Qc) (t v : Array) :
  a_shape v = a_shape t ->
  inplace2 f t v = Ok (mkArray (a_shape t) (zip_with f (a_data t) (a_data v))).
Proof.
  intros H. unfold inplace2. rewrite <- H, bshape_refl.
  rewrite decide_True by reflexivity.
  rewrite stretch_same by reflexivity. reflexivity.
Qed.

Lemma broadcast2_same (f : Qc -> Qc -> Qc) (a b : Array) :
  a_shape b = a_shape a ->
  broadcast2 f a b = Ok (mkArray (a_shape a) (zip_with f (a_data a) (a_data b))).
Proof.
  intros H. unfold broadcast2. rewrite H, bshape_refl.
  rewrite !stretch_same by auto. reflexivity.
Qed.

Lemma Qc_is_zero_true (q : Qc) : Qc_is_zero q = true <-> q = 0.
Proof. unfold Qc_is_zero. destruct (Qc_eq_dec q 0); split; congruence. Qed.

Lemma existsb_zero_false (l : list Qc) :
  Forall (fun c => c <> 0) l -> existsb Qc_is_zero l = false.
Proof.
  induction 1 as [|c l Hc _ IH]; simpl; [reflexivity|].
  rewrite IH, orb_false_r. destruct (Qc_is_zero c) eqn:E; [|reflexivity].
  apply Qc_is_zero_true in E. contradiction.
Qed.

Lemma existsb_zero_true (l : list Qc) :
  Exists (fun c => c = 0) l -> existsb Qc_is_zero l = true.
Proof.
  induction 1 as [c l Hc | c l _ IH]; simpl.
  - apply Qc_is_zero_true in Hc. rewrite Hc. reflexivity.
  - rewrite IH. apply orb_true_r.
Qed.

Lemma arr_div_same (a b : Array) :
  a_shape b = a_shape a ->
  Forall (fun c => c <> 0) (a_data b) ->
  arr_div a b = Ok (mkArray (a_shape a) (zip_with Qcdiv (a_data a) (a_data b))).
Proof.
  intros H Hnz. unfold arr_div. rewrite H, bshape_refl.
  rewrite !stretch_same by auto.
  rewrite existsb_zero_false by assumption. reflexivity.
Qed.

Lemma arr_div_zero (a b : Array) :
  a_shape b = a_shape a ->
  Exists (fun c => c = 0) (a_data b) ->
  arr_div a b = Err ZeroDivision.
Proof.
  intros H Hz. unfold arr_div. rewrite H, bshape_refl.
  rewrite stretch_same by auto.
  rewrite existsb_zero_true by assumption. reflexivity.
Qed.

(** ** The loop of [cg] *)

Section CgProperties.

Variable mat_vec_bnd : Matrix.t Array -> Unknown Array -> result Array.
Variable vec_vec : Array -> Array -> result Qc.
Variable Res : Type.
Variable norm : Array -> result Res.
Variable res_lt : Res -> Qc -> bool.
Variable Unknown_new :
  string -> Position.t -> shape -> Z -> bool * bool * bool -> Unknown Array.

Local Abbreviation init := (cg_init mat_vec_bnd Unknown_new).
Local Abbreviation update := (cg_update mat_vec_bnd vec_vec Res norm).
Local Abbreviation body := (cg_body mat_vec_bnd vec_vec Res norm res_lt).
Local Abbreviation loop := (cg_loop mat_vec_bnd vec_vec Res norm res_lt).
Local Abbreviation solve := (cg mat_vec_bnd vec_vec Res norm res_lt Unknown_new).
Local Abbreviation unconverged := (Unconverged mat_vec_bnd vec_vec Res norm res_lt).
Local Abbreviation at_head :=
  (AtLoopHead mat_vec_bnd vec_vec Res norm res_lt Unknown_new).

(** The locals with which the next iteration starts. *)
Local Abbreviation carry l rho :=
  (mkLocals (l_p l) (l_q l) (l_r l) (l_z l) (Some rho)).

(** *** What one pass writes *)

Lemma update_store a x i l s l' rho res s' :
  update a x i l s = Ok (l', rho, res, s') ->
  exists xv xv', load s x = Ok xv /\ a_shape xv' = a_shape xv
                 /\ s' = <[x := xv']> s.
Proof.
  unfold cg_update. intros H.
  do 10 inv_bind H. do 3 inv_bind H.
  injection H as <- <- <- <-.
  match goal with
  | E : arr_iadd _ _ = Ok ?w |- _ => apply inplace2_shape in E; eauto
  end.
Qed.

Lemma body_cases a x tol i l s f s' :
  body a x tol i l s = Ok (f, s') ->
  exists l' rho res,
    update a x i l s = Ok (l', rho, res, s')
    /\ ((res_lt res tol = true /\ f = Return x)
        \/ (res_lt res tol = false /\ f = Next (carry l' rho))).
Proof.
  unfold cg_body. intros H. inv_bind H.
  destruct v as [[[l' rho] res] s1].
  exists l', rho, res.
  destruct (res_lt res tol); injection H as <- <-; auto.
Qed.

Lemma body_return a x tol i l s l' rho res s' :
  update a x i l s = Ok (l', rho, res, s') ->
  res_lt res tol = true ->
  body a x tol i l s = Ok (Return x, s').
Proof. intros H Hlt. unfold cg_body. rewrite H. simpl. rewrite Hlt. reflexivity. Qed.

Lemma body_next a x tol i l s l' rho res s' :
  update a x i l s = Ok (l', rho, res, s') ->
  res_lt res tol = false ->
  body a x tol i l s = Ok (Next (carry l' rho), s').
Proof. intros H Hlt. unfold cg_body. rewrite H. simpl. rewrite Hlt. reflexivity. Qed.

Lemma lookup_insert_other (s : store) (x l : loc) (v : Array) :
  l <> x -> <[x := v]> s !! l = s !! l.
Proof. intros H. apply lookup_insert_ne. congruence. Qed.

Lemma loop_frame a x tol idx : forall l s v s',
  loop a x tol idx l s = Ok (v, s') ->
  v = x /\ forall k, k <> x -> s' !! k = s !! k.
Proof.
  induction idx as [|i idx IH]; intros l s v s' H; simpl in H.
  - injection H as <- <-. auto.
  - inv_bind H. destruct v0 as [f s1].
    destruct (body_cases _ _ _ _ _ _ _ _ E) as (l' & rho & res & Hu & Hf).
    destruct (update_store _ _ _ _ _ _ _ _ _ Hu) as (xv & xv' & _ & _ & ->).
    destruct Hf as [[_ ->] | [_ ->]].
    + injection H as <- <-. split; [reflexivity|].
      intros k Hk. apply lookup_insert_other, Hk.
    + apply IH in H as [-> Hs]. split; [reflexivity|].
      intros k Hk. rewrite Hs by assumption. apply lookup_insert_other, Hk.
Qed.

Lemma solve_unfold a phi b tol verbose max_iter s l xv :
  init a phi b s = Ok l ->
  load s (val phi) = Ok xv ->
  solve a phi b tol verbose max_iter s
  = loop a (val phi) tol (range 1 (cap max_iter (a_shape xv))) l s.
Proof. intros Hi Hx. unfold cg. rewrite Hi. simpl. rewrite Hx. reflexivity. Qed.

Lemma load_frame (s s' : store) (x k : loc) :
  (forall j, j <> x -> s' !! j = s !! j) -> k <> x -> load s' k = load s k.
Proof. intros H Hk. unfold load. rewrite H by assumption. reflexivity. Qed.

(** C7. A call of [cg] that returns hands back the reference [phi.val]
    itself, and in the store it leaves behind every array other than the
    one at [phi.val] is what it was before the call: [phi.old], the
    boundary arrays of [phi], the arrays of the operator [a] and the
    right-hand side [b], each stored apart from [phi.val], read the same
    after the call as before. The object [phi] (its position, its
    references) is not assigned to. *)
Theorem cg_frame a phi b tol verbose max_iter s v s' :
  solve a phi b tol verbose max_iter s = Ok (v, s') ->
  v = val phi
  /\ (forall k, k <> val phi -> s' !! k = s !! k)
  /\ (old phi <> val phi -> load s' (old phi) = load s (old phi))
  /\ (forall f, Bnd.typ (bnd phi f) <> val phi -> Bnd.val (bnd phi f) <> val phi ->
                load_bnd s' (bnd phi f) = load_bnd s (bnd phi f))
  /\ (Forall (fun k => k <> val phi)
        [Matrix.C a; Matrix.W a; Matrix.E a; Matrix.S a;
         Matrix.N a; Matrix.B a; Matrix.T a] ->
      load_matrix s' a = load_matrix s a)
  /\ (b <> val phi -> load s' b = load s b).
Proof.
  intros H. unfold cg in H. inv_bind H. inv_bind H.
  apply loop_frame in H as [-> Hs].
  split; [reflexivity|]. split; [exact Hs|].
  split; [intros Hk; eapply load_frame; eauto|].
  split.
  - intros f Ht Hv. unfold load_bnd.
    rewrite (load_frame s s' (val phi)) by assumption.
    rewrite (load_frame s s' (val phi) (Bnd.val _)) by assumption.
    reflexivity.
  - split; [|intros Hk; eapply load_frame; eauto].
    intros Ha. repeat (apply Forall_cons in Ha as [? Ha]).
    unfold load_matrix.
    rewrite !(load_frame s s' (val phi)) by assumption. reflexivity.
Qed.

(** *** Early exit and exhaustion *)

Lemma range_lookup (lo hi : Z) (k : nat) (v : Z) :
  range lo hi !! k = Some v -> v = (lo + Z.of_nat k)%Z.
Proof.
  unfold range. rewrite list_lookup_fmap. intros H.
  destruct (seq 0 (Z.to_nat (hi - lo)) !! k) as [n|] eqn:E; [|discriminate].
  apply lookup_seq in E as [-> _]. injection H as <-. reflexivity.
Qed.

Lemma range_head (lo hi i : Z) (rest : list Z) :
  range lo hi = i :: rest -> i = lo.
Proof.
  intros H. assert (E : range lo hi !! 0%nat = Some i) by (rewrite H; reflexivity).
  apply range_lookup in E. lia.
Qed.

Lemma range_consecutive (lo hi i j : Z) (before rest : list Z) :
  range lo hi = before ++ i :: j :: rest -> j = (i + 1)%Z.
Proof.
  intros H.
  assert (Ei : range lo hi !! length before = Some i).
  { rewrite H. rewrite lookup_app_r by lia. rewrite Nat.sub_diag. reflexivity. }
  assert (Ej : range lo hi !! S (length before) = Some j).
  { rewrite H. rewrite lookup_app_r by lia.
    replace (S (length before) - length before)%nat with 1%nat by lia. reflexivity. }
  apply range_lookup in Ei, Ej. lia.
Qed.

Lemma range_length (lo hi : Z) : length (range lo hi) = Z.to_nat (hi - lo).
Proof. unfold range. rewrite length_map, length_seq. reflexivity. Qed.

Lemma loop_unconverged a x tol idx l s l1 s1 :
  unconverged a x tol idx l s l1 s1 ->
  forall rest, loop a x tol (idx ++ rest) l s = loop a x tol rest l1 s1.
Proof.
  induction 1 as [l s | i idx l s l1 rho res s1 l2 s2 Hu Hlt _ IH]; intros rest.
  - reflexivity.
  - simpl. rewrite (body_next _ _ _ _ _ _ _ _ _ _ Hu Hlt). simpl. apply IH.
Qed.

(** C3. Let the iterations [before] have run without reaching the
    tolerance and let iteration [i] compute the residual norm [res] after
    its update. If [res < tol], [cg] returns [x] with the store as that
    update left it, whatever iterations [rest] were still allowed: none of
    them runs. If not, the run goes on with the remaining iterations from
    the carried locals, beginning, when any is left, with iteration
    [i + 1]. *)
Theorem cg_early_exit a phi b tol verbose max_iter s l0 xv
    before i rest l s1 l1 rho res s2 :
  init a phi b s = Ok l0 ->
  load s (val phi) = Ok xv ->
  range 1 (cap max_iter (a_shape xv)) = before ++ i :: rest ->
  unconverged a (val phi) tol before l0 s l s1 ->
  update a (val phi) i l s1 = Ok (l1, rho, res, s2) ->
  (res_lt res tol = true ->
     solve a phi b tol verbose max_iter s = Ok (val phi, s2))
  /\ (res_lt res tol = false ->
        solve a phi b tol verbose max_iter s
        = loop a (val phi) tol rest (carry l1 rho) s2
        /\ (rest <> [] -> exists rest', rest = (i + 1)%Z :: rest')).
Proof.
  intros Hi Hx Hr Hun Hu.
  rewrite (solve_unfold _ _ _ _ _ _ _ _ _ Hi Hx), Hr.
  rewrite (loop_unconverged _ _ _ _ _ _ _ _ Hun). split.
  - intros Hlt. simpl. rewrite (body_return _ _ _ _ _ _ _ _ _ _ Hu Hlt).
    reflexivity.
  - intros Hlt. split.
    + simpl. rewrite (body_next _ _ _ _ _ _ _ _ _ _ Hu Hlt). reflexivity.
    + destruct rest as [|j rest']; [congruence|]. intros _.
      exists rest'. f_equal. eapply range_consecutive, Hr.
Qed.

(** C4. When every iteration the cap allows has run without the residual
    norm dropping below [tol], [cg] returns normally: the reference [x]
    and the store as the last update left it. And the value returned
    after the last allowed iteration is one and the same whether or not
    that iteration found the norm below [tol]: the result carries nothing
    that tells the two apart. *)
Theorem cg_exhausted a phi b tol verbose max_iter s l0 xv :
  init a phi b s = Ok l0 ->
  load s (val phi) = Ok xv ->
  (forall l1 s1,
     unconverged a (val phi) tol (range 1 (cap max_iter (a_shape xv))) l0 s l1 s1 ->
     solve a phi b tol verbose max_iter s = Ok (val phi, s1))
  /\ (forall before i l s1 l1 rho res s2,
        range 1 (cap max_iter (a_shape xv)) = before ++ [i] ->
        unconverged a (val phi) tol before l0 s l s1 ->
        update a (val phi) i l s1 = Ok (l1, rho, res, s2) ->
        solve a phi b tol verbose max_iter s = Ok (val phi, s2)).
Proof.
  intros Hi Hx. rewrite (solve_unfold _ _ _ _ _ _ _ _ _ Hi Hx). split.
  - intros l1 s1 Hun.
    rewrite <- (app_nil_r (range 1 _)).
    rewrite (loop_unconverged _ _ _ _ _ _ _ _ Hun). reflexivity.
  - intros before i l s1 l1 rho res s2 Hr Hun Hu. rewrite Hr.
    rewrite (loop_unconverged _ _ _ _ _ _ _ _ Hun). simpl.
    destruct (res_lt res tol) eqn:Hlt.
    + rewrite (body_return _ _ _ _ _ _ _ _ _ _ Hu Hlt). reflexivity.
    + rewrite (body_next _ _ _ _ _ _ _ _ _ _ Hu Hlt). reflexivity.
Qed.

(** *** The shapes along a run *)

Lemma load_matrix_C (s : store) (a : Matrix.t loc) (av : Matrix.t Array) :
  load_matrix s a = Ok av -> load s (Matrix.C a) = Ok (Matrix.C av).
Proof.
  unfold load_matrix. intros H. do 7 inv_bind H. injection H as <-.
  assumption.
Qed.

Lemma init_shapes a phi b s l xv aC :
  init a phi b s = Ok l ->
  load s (val phi) = Ok xv ->
  load s (Matrix.C a) = Ok aC ->
  a_shape aC = a_shape xv ->
  shapes_ok (a_shape xv) a (val phi) l s /\ l_rho_old l = None
  /\ l_p l = Unknown_new "vec_p" (pos phi) (a_shape xv) (-1) (per phi).
Proof.
  intros H Hx HC Hsh. unfold cg_init in H. rewrite Hx in H. simpl in H.
  do 6 inv_bind H. injection H as <-. simpl.
  match goal with E : assign _ _ = Ok _ |- _ => apply assign_shape in E end.
  unfold shapes_ok; simpl. repeat split; eauto.
Qed.

Lemma update_shapes sh a x i l s l' rho res s' :
  shapes_ok sh a x l s ->
  update a x i l s = Ok (l', rho, res, s') ->
  shapes_ok sh a x (carry l' rho) s'.
Proof.
  intros (Hr & Hz & Hq & (xv & Hx & Hxs) & (aC & HC & HCs)) H.
  pose proof (update_store _ _ _ _ _ _ _ _ _ H) as (xv0 & xv' & Hx0 & Hs' & ->).
  rewrite Hx in Hx0. injection Hx0 as <-.
  unfold cg_update in H. do 13 inv_bind H. injection H as <- _ _ _. simpl.
  unfold precondition in *.
  repeat match goal with
  | E : rbind _ _ = Ok _ |- _ => inv_bind E
  | E : assign _ _ = Ok _ |- _ => apply assign_shape in E
  | E : arr_isub _ _ = Ok _ |- _ => apply inplace2_shape in E
  end.
  unfold shapes_ok; simpl. repeat split; try congruence.
  - exists xv'. split; [|congruence]. unfold load. rewrite lookup_insert_eq. reflexivity.
  - destruct (decide (Matrix.C a = x)) as [<-|Hne].
    + exists xv'. split; [|congruence]. unfold load. rewrite lookup_insert_eq. reflexivity.
    + exists aC. split; [|assumption]. unfold load in *.
      rewrite lookup_insert_ne by congruence. assumption.
Qed.

Lemma update_p_shape a x i l s l' rho res s' :
  update a x i l s = Ok (l', rho, res, s') ->
  a_shape (val (l_p l')) = a_shape (val (l_p l))
  /\ l_p l' = with_val (l_p l) (val (l_p l')).
Proof.
  intros H. unfold cg_update in H. do 13 inv_bind H. injection H as <- _ _ _. simpl.
  split; [|reflexivity].
  match goal with E : direction _ _ _ _ = Ok _ |- _ => rename E into Hd end.
  unfold direction in Hd. destruct (i =? 1)%Z.
  - apply assign_shape in Hd. assumption.
  - do 3 inv_bind Hd. apply assign_shape in Hd. assumption.
Qed.

(** Every state at the head of the loop lies on the run of [cg]: what [cg]
    returns is what the loop returns when resumed from that state. *)
Lemma at_head_on_run a phi b tol verbose max_iter s0 idx l s :
  at_head a phi b tol max_iter s0 idx l s ->
  solve a phi b tol verbose max_iter s0 = loop a (val phi) tol idx l s.
Proof.
  induction 1 as [l xv Hi Hxv | i idx l s l' s' _ IH Hb].
  - apply solve_unfold; assumption.
  - rewrite IH. simpl. rewrite Hb. reflexivity.
Qed.

(** Where a run stands, seen from its start: the iterations already done,
    and for a state that is not the first the pass that led to it. *)
Lemma at_head_history a phi b tol max_iter s0 xv0 aC0 idx l s :
  load s0 (val phi) = Ok xv0 ->
  load s0 (Matrix.C a) = Ok aC0 ->
  a_shape aC0 = a_shape xv0 ->
  at_head a phi b tol max_iter s0 idx l s ->
  shapes_ok (a_shape xv0) a (val phi) l s
  /\ a_shape (val (l_p l))
     = a_shape (val (Unknown_new "vec_p" (pos phi) (a_shape xv0) (-1) (per phi)))
  /\ exists before,
       range 1 (cap max_iter (a_shape xv0)) = before ++ idx
       /\ ((before = [] /\ l_rho_old l = None)
           \/ (exists before' ip lp sp lq rho_p res_p,
                 before = before' ++ [ip]
                 /\ at_head a phi b tol max_iter s0 (ip :: idx) lp sp
                 /\ update a (val phi) ip lp sp = Ok (lq, rho_p, res_p, s)
                 /\ l = carry lq rho_p)).
Proof.
  intros Hx HC Hsh H.
  induction H as [l xv Hi Hxv | i idx l s l' s' Hh IH Hb].
  - rewrite Hx in Hxv. injection Hxv as <-.
    destruct (init_shapes _ _ _ _ _ _ _ Hi Hx HC Hsh) as (Hs & Hrho & Hp).
    split; [exact Hs|]. split; [rewrite Hp; reflexivity|].
    exists []. split; [reflexivity|]. left. auto.
  - destruct IH as (Hs & Hp & before & Hr & _).
    destruct (body_cases _ _ _ _ _ _ _ _ Hb) as (lq & rho & res & Hu & Hf).
    destruct Hf as [[_ Hf] | [_ Hf]]; [discriminate|]. injection Hf as ->.
    split; [eapply update_shapes; eauto|].
    split; [simpl; rewrite <- Hp; eapply update_p_shape; eauto|].
    exists (before ++ [i]). split; [rewrite <- app_assoc; exact Hr|].
    right. exists before, i, l, s, lq, rho, res. auto.
Qed.

(** *** One pass against the recurrence of the specification *)

Lemma arr_div_shape (a b d : Array) :
  a_shape b = a_shape a -> arr_div a b = Ok d -> a_shape d = a_shape a.
Proof.
  intros H. unfold arr_div. rewrite H, bshape_refl.
  destruct (existsb _ _); [discriminate|]. intros [= <-]. reflexivity.
Qed.

Lemma broadcast2_shape (f : Qc -> Qc -> Qc) (a b d : Array) :
  a_shape b = a_shape a -> broadcast2 f a b = Ok d -> a_shape d = a_shape a.
Proof. intros H. rewrite broadcast2_same by assumption. intros [= <-]. reflexivity. Qed.

Lemma inplace2_broadcast2 (f : Qc -> Qc -> Qc) (t v : Array) :
  a_shape v = a_shape t -> inplace2 f t v = broadcast2 f t v.
Proof.
  intros H. rewrite inplace2_same, broadcast2_same by assumption. reflexivity.
Qed.

Lemma update_refines sh a x i l s l' rho res s' :
  (forall av u r, mat_vec_bnd av u = Ok r -> a_shape r = a_shape (val u)) ->
  shapes_ok sh a x l s ->
  a_shape (val (l_p l)) = sh ->
  update a x i l s = Ok (l', rho, res, s') ->
  exists av xv x',
    load_matrix s a = Ok av /\ load s x = Ok xv
    /\ pcg_iteration mat_vec_bnd vec_vec av (l_p l) (i =? 1)%Z
         xv (l_r l) (val (l_p l)) (l_rho_old l)
       = Ok (x', l_r l', val (l_p l'), l_q l', rho)
    /\ s' = <[x := x']> s.
Proof.
  intros Hmvb (Hr & Hz & Hq & (xv0 & Hx0 & Hxs) & (aC0 & HC0 & HCs)) Hp H.
  unfold cg_update in H.
  apply rbind_Ok in H as (aC & HaC & H).
  apply rbind_Ok in H as (z & Ez & H).
  apply rbind_Ok in H as (rho0 & Erho & H).
  apply rbind_Ok in H as (pv & Epv & H).
  apply rbind_Ok in H as (av & Eav & H).
  apply rbind_Ok in H as (Ap & EAp & H).
  apply rbind_Ok in H as (q & Eq & H).
  apply rbind_Ok in H as (pq & Epq & H).
  apply rbind_Ok in H as (alfa & Ealfa & H).
  apply rbind_Ok in H as (xv & Exv & H).
  apply rbind_Ok in H as (xv' & Exv' & H).
  apply rbind_Ok in H as (r' & Er' & H).
  apply rbind_Ok in H as (res0 & Eres & H).
  injection H as <- <- <- <-. simpl in *.
  rewrite HC0 in HaC. injection HaC as <-.
  rewrite Hx0 in Exv. injection Exv as <-.
  pose proof (load_matrix_C _ _ _ Eav) as HCav.
  rewrite HC0 in HCav. injection HCav as HCav.
  (* z *)
  unfold precondition in Ez. apply rbind_Ok in Ez as (d & Ed & Ez).
  assert (Hd : a_shape d = sh).
  { rewrite <- Hr. eapply arr_div_shape; [|exact Ed]. congruence. }
  rewrite assign_same in Ez by congruence. injection Ez as <-.
  (* p *)
  assert (Hpv : a_shape pv = sh /\
    (if (i =? 1)%Z then Ok d
     else match l_rho_old l with
          | Some rho_prev =>
              do beta <- sdiv rho0 rho_prev;
              arr_add d (arr_scale beta (val (l_p l)))
          | None => Err NameError
          end) = Ok pv).
  { unfold direction in Epv. destruct (i =? 1)%Z.
    - rewrite assign_same in Epv by congruence. injection Epv as <-. auto.
    - apply rbind_Ok in Epv as (rho_old & Eold & Epv).
      apply rbind_Ok in Epv as (beta & Ebeta & Epv).
      apply rbind_Ok in Epv as (t & Et & Epv).
      unfold read_rho_old in Eold. destruct (l_rho_old l); [|discriminate].
      injection Eold as ->.
      assert (Ht : a_shape t = sh).
      { rewrite <- Hd. eapply broadcast2_shape; [|exact Et]. simpl. congruence. }
      rewrite assign_same in Epv by congruence. injection Epv as <-.
      split; [assumption|]. rewrite Ebeta. simpl. exact Et. }
  destruct Hpv as [Hpvs Hpv].
  (* q *)
  pose proof (Hmvb _ _ _ EAp) as HAp. simpl in HAp.
  rewrite assign_same in Eq by congruence. injection Eq as <-.
  exists av, xv0, xv'. split; [assumption|]. split; [assumption|].
  split; [|reflexivity].
  unfold pcg_iteration. rewrite <- HCav, Ed. simpl. rewrite Erho. simpl.
  rewrite Hpv. simpl. rewrite EAp. simpl. rewrite Epq. simpl.
  rewrite Ealfa. simpl.
  unfold arr_iadd in Exv'. rewrite inplace2_broadcast2 in Exv' by (simpl; congruence).
  unfold arr_isub in Er'. rewrite inplace2_broadcast2 in Er' by (simpl; congruence).
  unfold arr_add, arr_sub. rewrite Exv'. simpl. rewrite Er'. reflexivity.
Qed.

(** C1. Every pass of the loop of [cg], on a system whose central
    coefficients are shaped like the field, computes the recurrence of the
    specification: with [rho = vec_vec(r, z)] taken before the update, the
    direction is [z] when [i = 1] and [z + (rho / rho_old) * p] otherwise,
    the step is [rho / vec_vec(p, q)] with [q = mat_vec_bnd(a, p)], and [x]
    and [r] move by [alfa * p] and [alfa * q]. When [i] is not 1, the pass
    before was iteration [i - 1], [rho_old] is the [rho] that pass computed,
    and [p] and [r] are what it left. The pass is one of the run: [cg]
    returns what the loop returns from there. *)
Theorem cg_recurrence a phi b tol verbose max_iter s0 aC0 xv0
    i idx l s l' rho res s' :
  (forall av u r, mat_vec_bnd av u = Ok r -> a_shape r = a_shape (val u)) ->
  (forall n ps sh bc pr, a_shape (val (Unknown_new n ps sh bc pr)) = sh) ->
  load s0 (Matrix.C a) = Ok aC0 ->
  load s0 (val phi) = Ok xv0 ->
  a_shape aC0 = a_shape xv0 ->
  at_head a phi b tol max_iter s0 (i :: idx) l s ->
  update a (val phi) i l s = Ok (l', rho, res, s') ->
  (exists av xv x',
     load_matrix s a = Ok av /\ load s (val phi) = Ok xv
     /\ pcg_iteration mat_vec_bnd vec_vec av (l_p l) (i =? 1)%Z
          xv (l_r l) (val (l_p l)) (l_rho_old l)
        = Ok (x', l_r l', val (l_p l'), l_q l', rho)
     /\ s' = <[val phi := x']> s)
  /\ ((i = 1%Z /\ l_rho_old l = None)
      \/ (i <> 1%Z /\
          exists lp sp lq rho_p res_p,
            at_head a phi b tol max_iter s0 ((i - 1)%Z :: i :: idx) lp sp
            /\ update a (val phi) (i - 1) lp sp = Ok (lq, rho_p, res_p, s)
            /\ l_rho_old l = Some rho_p
            /\ val (l_p l) = val (l_p lq) /\ l_r l = l_r lq))
  /\ solve a phi b tol verbose max_iter s0
     = loop a (val phi) tol (i :: idx) l s.
Proof.
  intros Hmvb Hnew HC Hx Hsh Hh Hu.
  destruct (at_head_history _ _ _ _ _ _ _ _ _ _ _ Hx HC Hsh Hh)
    as (Hs & Hp & before & Hr & Hhist).
  rewrite Hnew in Hp. split; [|split; [|apply at_head_on_run; exact Hh]].
  - eapply update_refines; eauto.
  - destruct Hhist as [[-> Hnone] | Hprev].
    + left. split; [|assumption]. eapply range_head. exact Hr.
    + destruct Hprev as (before' & ip & lp & sp & lq & rho_p & res_p
                         & -> & Hhp & Hup & ->).
      rewrite <- app_assoc in Hr. simpl in Hr.
      pose proof (range_consecutive _ _ _ _ _ _ Hr) as Hi.
      assert (Hip : range 1 (cap max_iter (a_shape xv0)) !! length before' = Some ip).
      { rewrite Hr. rewrite lookup_app_r by lia. rewrite Nat.sub_diag. reflexivity. }
      apply range_lookup in Hip.
      assert (ip = (i - 1)%Z) as -> by lia.
      right. split; [lia|].
      exists lp, sp, lq, rho_p, res_p. simpl. auto.
Qed.

(** C6. At every pass of the loop, on a system whose central coefficients
    are shaped like the field: when no entry of [a.C] is zero, the
    preconditioning is the entry-by-entry quotient [r / a.C] and that is the
    [z] the pass works with; when an entry of [a.C] is zero the division is
    evaluated all the same, nothing in the pass or the loop catches it, and
    the call of [cg] ends in that undefined division. *)
Theorem cg_jacobi_preconditioning a phi b tol verbose max_iter s0 aC0 xv0
    i idx l s :
  load s0 (Matrix.C a) = Ok aC0 ->
  load s0 (val phi) = Ok xv0 ->
  a_shape aC0 = a_shape xv0 ->
  at_head a phi b tol max_iter s0 (i :: idx) l s ->
  solve a phi b tol verbose max_iter s0 = loop a (val phi) tol (i :: idx) l s
  /\ exists aC,
    load s (Matrix.C a) = Ok aC
    /\ a_shape aC = a_shape (l_r l)
    /\ (Forall (fun c => c <> 0) (a_data aC) ->
        precondition l aC
        = Ok (mkArray (a_shape (l_r l))
                (zip_with Qcdiv (a_data (l_r l)) (a_data aC)))
        /\ forall l' rho res s',
             update a (val phi) i l s = Ok (l', rho, res, s') ->
             l_z l' = mkArray (a_shape (l_r l))
                        (zip_with Qcdiv (a_data (l_r l)) (a_data aC)))
    /\ (Exists (fun c => c = 0) (a_data aC) ->
        precondition l aC = Err ZeroDivision
        /\ body a (val phi) tol i l s = Err ZeroDivision
        /\ solve a phi b tol verbose max_iter s0 = Err ZeroDivision).
Proof.
  intros HC Hx Hsh Hh.
  pose proof (at_head_on_run _ _ _ _ verbose _ _ _ _ _ Hh) as Hrun.
  split; [exact Hrun|]. rewrite Hrun.
  destruct (at_head_history _ _ _ _ _ _ _ _ _ _ _ Hx HC Hsh Hh)
    as ((Hr & Hz & _ & _ & (aC & HaC & HCs)) & _).
  exists aC. split; [assumption|]. split; [congruence|]. split.
  - intros Hnz.
    assert (Hpre : precondition l aC
                   = Ok (mkArray (a_shape (l_r l))
                           (zip_with Qcdiv (a_data (l_r l)) (a_data aC)))).
    { unfold precondition. rewrite arr_div_same by congruence. simpl.
      apply assign_same. simpl. congruence. }
    split; [exact Hpre|].
    intros l' rho res s' Hu. unfold cg_update in Hu.
    rewrite HaC in Hu. simpl in Hu. rewrite Hpre in Hu. simpl in Hu.
    do 11 inv_bind Hu. injection Hu as <- _ _ _. reflexivity.
  - intros Hzero.
    assert (Hpre : precondition l aC = Err ZeroDivision).
    { unfold precondition. rewrite arr_div_zero by congruence. reflexivity. }
    assert (Hb : body a (val phi) tol i l s = Err ZeroDivision).
    { unfold cg_body, cg_update. rewrite HaC. simpl. rewrite Hpre. reflexivity. }
    split; [exact Hpre|]. split; [exact Hb|].
    simpl. rewrite Hb. reflexivity.
Qed.

End CgProperties.

(** ** Lists of rationals *)





Lemma qsum_zeros (l : list Qc) : Forall (fun v => v = 0) l -> qsum l = 0.
Proof. induction 1 as [|x l -> _ IH]; simpl; [reflexivity|]. rewrite IH. ring. Qed.

Lemma zip_mult_zeros_l (l m : list Qc) :
  Forall (fun v => v = 0) l -> Forall (fun v => v = 0) (zip_with Qcmult l m).
Proof.
  intros H. revert m. induction H as [|x l -> _ IH]; intros [|y m]; simpl;
    constructor; [ring | apply IH].
Qed.


Lemma zip_div_zeros (l m : list Qc) :
  Forall (fun v => v = 0) l -> Forall (fun v => v = 0) (zip_with Qcdiv l m).
Proof.
  intros H. revert m. induction H as [|x l -> _ IH]; intros [|y m]; simpl;
    constructor; [unfold Qcdiv; ring | apply IH].
Qed.




Lemma Forall_zero_repeat (l : list Qc) :
  Forall (fun v => v = 0) l -> l = repeat 0 (length l).
Proof. induction 1 as [|x l -> _ IH]; simpl; [reflexivity|]. f_equal. exact IH. Qed.

(** ** Arrays entry by entry *)

Lemma flat_map_ext_in {A B : Type} (f g : A -> list B) (l : list A) :
  (forall a, In a l -> f a = g a) -> flat_map f l = flat_map g l.
Proof.
  induction l as [|a l IH]; intros H; simpl; [reflexivity|].
  rewrite (H a) by (left; reflexivity).
  rewrite IH by (intros; apply H; right; assumption). reflexivity.
Qed.

Lemma tabulate_ext (s : shape) (f g : nat -> nat -> nat -> Qc) :
  (forall i j k, (i < s.1.1)%nat -> (j < s.1.2)%nat -> (k < s.2)%nat ->
                 f i j k = g i j k) ->
  tabulate s f = tabulate s g.
Proof.
  destruct s as [[nx ny] nz]. simpl. intros H.
  apply flat_map_ext_in. intros i Hi. apply in_seq in Hi.
  apply flat_map_ext_in. intros j Hj. apply in_seq in Hj.
  apply map_ext_in. intros k Hk. apply in_seq in Hk.
  apply H; lia.
Qed.

Lemma take_add {A : Type} (a b : nat) (l : list A) :
  take (a + b) l = take a l ++ take b (drop a l).
Proof.
  revert l. induction a as [|a IH]; intros l; simpl.
  - rewrite drop_0. reflexivity.
  - destruct l as [|x l]; simpl.
    + rewrite take_nil. reflexivity.
    + rewrite IH. reflexivity.
Qed.

Lemma row_of_entries (d : list Qc) (o n : nat) :
  (o + n <= length d)%nat ->
  map (fun k => nth (o + k) d 0) (seq 0 n) = take n (drop o d).
Proof.
  induction n as [|n IH]; intros Hlen.
  - rewrite take_0. reflexivity.
  - rewrite seq_S, map_app, IH by lia. simpl.
    replace (S n) with (n + 1)%nat by lia. rewrite take_add. f_equal.
    rewrite drop_drop.
    destruct (drop (o + n) d) as [|x t] eqn:E.
    + apply (f_equal length) in E. rewrite length_drop in E. simpl in E. lia.
    + simpl. rewrite take_0. f_equal.
      rewrite <- (take_drop (o + n) d) at 1.
      rewrite app_nth2 by (rewrite length_take; lia).
      rewrite length_take.
      replace (o + n - (o + n) `min` length d)%nat with 0%nat by lia.
      rewrite E. reflexivity.
Qed.

Lemma chunks_of_entries {A : Type} (d : list A) (c n o : nat) :
  flat_map (fun j => take c (drop (o + j * c) d)) (seq 0 n)
  = take (n * c) (drop o d).
Proof.
  induction n as [|n IH].
  - simpl. rewrite take_0. reflexivity.
  - rewrite seq_S, flat_map_app, IH. simpl. rewrite app_nil_r.
    replace (c + n * c)%nat with (n * c + c)%nat by lia.
    rewrite take_add, drop_drop. reflexivity.
Qed.

Lemma tabulate_get (a : Array) : wf a -> tabulate (a_shape a) (get a) = a_data a.
Proof.
  destruct a as [[[nx ny] nz] d]. unfold wf, get. simpl. intros Hlen.
  rewrite (flat_map_ext_in _
             (fun i => take (ny * nz) (drop (0 + i * (ny * nz)) d))).
  - rewrite chunks_of_entries, drop_0.
    apply take_ge. lia.
  - intros i Hi. apply in_seq in Hi.
    rewrite (flat_map_ext_in _
               (fun j => take nz (drop (i * (ny * nz) + j * nz) d))).
    + rewrite chunks_of_entries. reflexivity.
    + intros j Hj. apply in_seq in Hj.
      replace (i * (ny * nz) + j * nz)%nat with ((i * ny + j) * nz)%nat by lia.
      apply row_of_entries. rewrite Hlen.
      assert (H1 : (i * ny + j + 1 <= nx * ny)%nat) by nia.
      apply (Nat.mul_le_mono_r _ _ nz) in H1. lia.
Qed.


Lemma tabulate_length (s : shape) (f : nat -> nat -> nat -> Qc) :
  length (tabulate s f) = size s.
Proof.
  destruct s as [[nx ny] nz]. simpl.
  assert (Hrow : forall i j, length (map (fun k => f i j k) (seq 0 nz)) = nz).
  { intros. rewrite length_map, length_seq. reflexivity. }
  assert (Hplane : forall i,
    length (flat_map (fun j => map (fun k => f i j k) (seq 0 nz)) (seq 0 ny))
    = (ny * nz)%nat).
  { intros i. induction ny as [|n IH]; [reflexivity|].
    rewrite seq_S, flat_map_app, length_app, IH. simpl.
    rewrite app_nil_r, Hrow. lia. }
  induction nx as [|n IH]; [reflexivity|].
  rewrite seq_S, flat_map_app, length_app, IH. simpl.
  rewrite app_nil_r, Hplane. lia.
Qed.

(** ** [cg] with the sister modules of the specification *)

Lemma load_unknown_val (s : store) (u : Unknown loc) (uv : Unknown Array) :
  load_unknown s u = Ok uv ->
  load s (val u) = Ok (val uv) /\ pos uv = pos u /\ per uv = per u.
Proof.
  unfold load_unknown. intros H. do 8 inv_bind H. injection H as <-.
  simpl. auto.
Qed.

Lemma Unknown_spec_shape nm ps sh bc pr :
  a_shape (val (Unknown_spec nm ps sh bc pr)) = sh.
Proof. reflexivity. Qed.


Lemma Qc_ltb_true (x y : Qc) : Qc_ltb x y = true <-> x < y.
Proof.
  unfold Qc_ltb. destruct (Qclt_le_dec x y) as [H|H]; split; auto; try discriminate.
  intros H'. exfalso. exact (Qcle_not_lt _ _ H H').
Qed.

(** [surd_lt] is the comparison of the square root: for the non-negative
    [y] whose square is the radicand, it says [y < tol]. *)
Lemma surd_lt_root (r : Surd) (y tol : Qc) :
  0 <= y -> y * y = radicand r -> (surd_lt r tol = true <-> y < tol).
Proof.
  intros Hy Hsq. unfold surd_lt. rewrite andb_true_iff, !Qc_ltb_true, <- Hsq.
  split.
  - intros [Htol Hlt]. apply Qcnot_le_lt. intros Hle.
    apply (Qclt_not_le _ _ Hlt).
    apply Qcle_trans with (tol * y).
    + apply Qcmult_le_mono_nonneg_l; [apply Qclt_le_weak; exact Htol | exact Hle].
    + apply Qcmult_le_mono_nonneg_r; [exact Hy | exact Hle].
  - intros Hlt.
    assert (Htol : 0 < tol) by (eapply Qcle_lt_trans; eassumption).
    split; [exact Htol|].
    apply Qcle_lt_trans with (y * tol).
    + apply Qcmult_le_mono_nonneg_l; [exact Hy | apply Qclt_le_weak; exact Hlt].
    + apply Qcmult_lt_mono_pos_r; assumption.
Qed.

Lemma wf_zeros (sh : shape) : wf (zeros sh).
Proof. unfold wf, zeros. simpl. apply repeat_length. Qed.

Section SpecInstance.

Variable nbv : Unknown Array -> Compass.t -> nat -> nat -> nat -> Qc.

Local Abbreviation apply_spec := (mat_vec_bnd_spec nbv).

Lemma mat_vec_bnd_spec_shape av u r :
  apply_spec av u = Ok r -> a_shape r = a_shape (val u).
Proof.
  unfold mat_vec_bnd_spec. destruct (same_shapes _ _); [|discriminate].
  intros [= <-]. reflexivity.
Qed.


Local Abbreviation init_spec := (cg_init apply_spec Unknown_spec).
Local Abbreviation update_spec := (cg_update apply_spec vec_vec_spec Surd norm_spec).
Local Abbreviation body_spec := (cg_body apply_spec vec_vec_spec Surd norm_spec surd_lt).
Local Abbreviation loop_spec := (cg_loop apply_spec vec_vec_spec Surd norm_spec surd_lt).

(** The initial residual [b - x] of an identity-like system. *)
Local Abbreviation residual0 sh bv xv :=
  (mkArray sh (zip_with Qcminus (a_data bv) (a_data xv))).





(** *** A guess that already solves the system *)

Lemma get_zeros (sh : shape) (i j k : nat) : get (zeros sh) i j k = 0.
Proof. unfold get, zeros. simpl. apply nth_repeat. Qed.

Lemma same_shapes_C (sh : shape) (av : Matrix.t Array) :
  same_shapes av sh = true -> a_shape (Matrix.C av) = sh.
Proof.
  unfold same_shapes. rewrite !andb_true_iff. intros H.
  apply shape_eqb_eq. tauto.
Qed.

Lemma apply_spec_Ok_shapes av u r :
  apply_spec av u = Ok r ->
  same_shapes av (a_shape (val u)) = true /\ wf r /\ a_shape r = a_shape (val u).
Proof.
  unfold mat_vec_bnd_spec. destruct (same_shapes _ _); [|discriminate].
  intros [= <-]. split; [reflexivity|]. split; [|reflexivity].
  unfold wf. simpl. apply tabulate_length.
Qed.

Lemma apply_zero_field sh av u :
  same_shapes av sh = true ->
  val u = zeros sh ->
  (forall f i j k, nbv u f i j k = 0) ->
  apply_spec av u = Ok (zeros sh).
Proof.
  intros Hs Hv Hn. unfold mat_vec_bnd_spec. rewrite Hv. simpl. rewrite Hs.
  rewrite (tabulate_ext _ _ (get (zeros sh))).
  - pose proof (tabulate_get (zeros sh) (wf_zeros sh)) as E.
    change (a_shape (zeros sh)) with sh in E. rewrite E. reflexivity.
  - intros i j k _ _ _. unfold stencil. rewrite !Hn, Hv, !get_zeros. ring.
Qed.

Lemma zeros_data_eq (sh : shape) (l : list Qc) :
  length l = size sh -> Forall (fun v => v = 0) l -> mkArray sh l = zeros sh.
Proof.
  intros Hlen Hz. unfold zeros. f_equal. rewrite <- Hlen.
  apply Forall_zero_repeat. exact Hz.
Qed.

Lemma zip_minus_same (l m : list Qc) :
  l = m -> Forall (fun v => v = 0) (zip_with Qcminus l m).
Proof.
  intros <-. induction l as [|x l IH]; simpl; constructor; [ring | exact IH].
Qed.

(** C10. Take any system with a nonzero diagonal whose right-hand side [b]
    is exactly [mat_vec_bnd(a, phi)], so that the initial guess already
    solves it, and let the cap allow a first iteration. Then the initial
    residual is zero everywhere, iteration 1 computes [z = 0], [rho = 0],
    [p = 0], [q = 0] and [vec_vec(p, q) = 0], the step size is the
    undefined division 0/0, and [cg] ends in it rather than returning the
    guess. Such systems exist: the witness below is one. *)
Theorem cg_zero_residual a phi b tol verbose max_iter s sh av phiv bv :
  load_matrix s a = Ok av ->
  load_unknown s phi = Ok phiv ->
  load s b = Ok bv ->
  a_shape (val phiv) = sh ->
  a_shape bv = sh -> wf bv ->
  wf (Matrix.C av) ->
  Forall (fun c => c <> 0) (a_data (Matrix.C av)) ->
  (exists Ax, apply_spec av phiv = Ok Ax /\ a_data Ax = a_data bv) ->
  (forall f i j k,
     nbv (with_val (Unknown_spec "vec_p" (pos phi) sh (-1) (per phi)) (zeros sh))
       f i j k = 0) ->
  range 1 (cap max_iter sh) <> [] ->
  let p0 := Unknown_spec "vec_p" (pos phi) sh (-1) (per phi) in
  let l0 := mkLocals p0 (zeros sh) (zeros sh) (zeros sh) None in
  init_spec a phi b s = Ok l0
  /\ precondition l0 (Matrix.C av) = Ok (zeros sh)
  /\ vec_vec_spec (l_r l0) (zeros sh) = Ok 0
  /\ direction 1 l0 (zeros sh) 0 = Ok (zeros sh)
  /\ apply_spec av (with_val p0 (zeros sh)) = Ok (zeros sh)
  /\ vec_vec_spec (zeros sh) (zeros sh) = Ok 0
  /\ sdiv 0 0 = Err ZeroDivision
  /\ cg_spec nbv a phi b tol verbose max_iter s = Err ZeroDivision.
Proof.
  intros Hav Hphi Hb Hxs Hbs Hbw HCw HCnz (Ax & HAx & Hsol) Hnbv Hrun p0 l0.
  destruct (load_unknown_val _ _ _ Hphi) as (Hx & _ & _).
  pose proof (load_matrix_C _ _ _ Hav) as HC.
  destruct (apply_spec_Ok_shapes _ _ _ HAx) as (Hsame & HAxw & HAxs).
  rewrite Hxs in Hsame, HAxs.
  pose proof (same_shapes_C _ _ Hsame) as HCs.
  assert (Hinit : init_spec a phi b s = Ok l0).
  { unfold cg_init. rewrite Hx. simpl. rewrite Hb. simpl. rewrite Hav. simpl.
    rewrite Hphi. simpl. rewrite HAx. simpl.
    unfold arr_sub. rewrite broadcast2_same by congruence. simpl.
    rewrite assign_same by (simpl; congruence). simpl.
    rewrite Hxs, Hbs. unfold l0. do 2 f_equal.
    apply zeros_data_eq.
    - rewrite length_zip_with. unfold wf in *. rewrite Hbw, HAxw, Hbs, HAxs. lia.
    - apply zip_minus_same. congruence. }
  assert (Hpre : precondition l0 (Matrix.C av) = Ok (zeros sh)).
  { unfold precondition. simpl l_r. rewrite arr_div_same by assumption. simpl.
    rewrite assign_same by reflexivity. f_equal.
    apply zeros_data_eq.
    - rewrite length_zip_with, repeat_length. unfold wf in HCw.
      rewrite HCw, HCs. lia.
    - apply zip_div_zeros. apply Forall_forall. intros v Hv.
      apply list_elem_of_In, repeat_spec in Hv. exact Hv. }
  assert (Hvv : vec_vec_spec (zeros sh) (zeros sh) = Ok 0).
  { unfold vec_vec_spec. rewrite shape_eqb_refl. f_equal.
    apply qsum_zeros, zip_mult_zeros_l. apply Forall_forall. intros v Hv.
    apply list_elem_of_In, repeat_spec in Hv. exact Hv. }
  assert (Hdir : direction 1 l0 (zeros sh) 0 = Ok (zeros sh)).
  { unfold direction. simpl. apply assign_same. reflexivity. }
  assert (Hq : apply_spec av (with_val p0 (zeros sh)) = Ok (zeros sh)).
  { apply apply_zero_field; [assumption | reflexivity | exact Hnbv]. }
  assert (Hsd : sdiv 0 0 = Err ZeroDivision) by reflexivity.
  repeat (split; [assumption|]).
  unfold cg_spec.
  rewrite (solve_unfold _ _ _ _ _ _ _ _ _ _ _ _ _ _ _ Hinit Hx).
  rewrite Hxs.
  destruct (range 1 (cap max_iter sh)) as [|i rest] eqn:Er; [congruence|].
  apply range_head in Er as Hi. subst i.
  simpl. unfold cg_body, cg_update. rewrite HC. simpl. rewrite Hpre. simpl.
  change (l_r l0) with (zeros sh). rewrite Hvv. simpl. rewrite Hdir. simpl.
  rewrite Hav. simpl. change (l_p l0) with p0. rewrite Hq. simpl.
  rewrite assign_same by reflexivity. simpl. rewrite Hvv. simpl.
  reflexivity.
Qed.

End SpecInstance.

(** ** Arrays of different shapes *)

Lemma bdim_sym (m n : nat) : bdim m n = bdim n m.
Proof.
  unfold bdim.
  destruct (Nat.eqb_spec m n), (Nat.eqb_spec n m), (Nat.eqb_spec m 1),
    (Nat.eqb_spec n 1); congruence.
Qed.

Lemma bshape_sym (s t : shape) : bshape s t = bshape t s.
Proof.
  destruct s as [[a1 a2] a3], t as [[b1 b2] b3]. simpl.
  rewrite (bdim_sym a1), (bdim_sym a2), (bdim_sym a3). reflexivity.
Qed.

Lemma bdim_assign (m n c : nat) :
  bdim m n = Some c -> bdim n c = Some n -> bdim n m = Some n.
Proof.
  unfold bdim.
  destruct (Nat.eqb_spec m n), (Nat.eqb_spec n m), (Nat.eqb_spec m 1),
    (Nat.eqb_spec n 1); intros [= <-]; try congruence;
    destruct (Nat.eqb_spec n m), (Nat.eqb_spec n n); congruence.
Qed.

Lemma bshape_Some (s t c : shape) :
  bshape s t = Some c <->
  bdim s.1.1 t.1.1 = Some c.1.1 /\ bdim s.1.2 t.1.2 = Some c.1.2
  /\ bdim s.2 t.2 = Some c.2.
Proof.
  destruct s as [[a1 a2] a3], t as [[b1 b2] b3], c as [[c1 c2] c3]. simpl.
  split.
  - destruct (bdim a1 b1), (bdim a2 b2), (bdim a3 b3); intros H;
      try discriminate. injection H as <- <- <-. auto.
  - intros (-> & -> & ->). reflexivity.
Qed.

Lemma bshape_assign (s t c : shape) :
  bshape t s = Some c -> bshape s c = Some s -> bshape s t = Some s.
Proof.
  rewrite !bshape_Some. intros (H1 & H2 & H3) (K1 & K2 & K3).
  repeat split; eapply bdim_assign; eassumption.
Qed.

Section CgShapes.

Variable mat_vec_bnd : Matrix.t Array -> Unknown Array -> result Array.
Variable vec_vec : Array -> Array -> result Qc.
Variable Res : Type.
Variable norm : Array -> result Res.
Variable res_lt : Res -> Qc -> bool.
Variable Unknown_new :
  string -> Position.t -> shape -> Z -> bool * bool * bool -> Unknown Array.

(** C8, amended. [cg] checks no shapes and knows no ShapeMismatch error;
    its arrays meet under numpy's rules. With an operator and a field that
    agree (so that [mat_vec_bnd] yields an array shaped like the field): a
    right-hand side whose shape can be broadcast to the field's, every axis
    equal or of length 1, is stretched to it without a word and the solve
    goes on with the residual of the stretched array; any other right-hand
    side makes the residual initialisation raise numpy's [ValueError],
    before the loop. *)
Theorem cg_shapes a phi b tol verbose max_iter s xv bv av phiv Ax :
  load s (val phi) = Ok xv ->
  load s b = Ok bv ->
  load_matrix s a = Ok av ->
  load_unknown s phi = Ok phiv ->
  mat_vec_bnd av phiv = Ok Ax ->
  a_shape Ax = a_shape xv ->
  (bshape (a_shape xv) (a_shape bv) = Some (a_shape xv) ->
   cg_init mat_vec_bnd Unknown_new a phi b s
   = Ok (mkLocals
           (Unknown_new "vec_p" (pos phi) (a_shape xv) (-1) (per phi))
           (zeros (a_shape xv))
           (mkArray (a_shape xv)
              (zip_with Qcminus (stretch bv (a_shape xv)) (a_data Ax)))
           (zeros (a_shape xv)) None))
  /\ (bshape (a_shape xv) (a_shape bv) <> Some (a_shape xv) ->
      cg_init mat_vec_bnd Unknown_new a phi b s = Err ValueError
      /\ cg mat_vec_bnd vec_vec Res norm res_lt Unknown_new
           a phi b tol verbose max_iter s
         = Err ValueError).
Proof.
  intros Hx Hb Hav Hphi HAx Hs. split.
  - intros Hbc. unfold cg_init. rewrite Hx. simpl. rewrite Hb. simpl.
    rewrite Hav. simpl. rewrite Hphi. simpl. rewrite HAx. simpl.
    unfold arr_sub, broadcast2. rewrite Hs, bshape_sym, Hbc. simpl.
    rewrite (stretch_same Ax) by assumption.
    rewrite assign_same by reflexivity. reflexivity.
  - intros Hbc.
    assert (Hi : cg_init mat_vec_bnd Unknown_new a phi b s = Err ValueError).
    { unfold cg_init. rewrite Hx. simpl. rewrite Hb. simpl.
      rewrite Hav. simpl. rewrite Hphi. simpl. rewrite HAx. simpl.
      unfold arr_sub, broadcast2. rewrite Hs.
      destruct (bshape (a_shape bv) (a_shape xv)) as [c|] eqn:Ec; [|reflexivity].
      simpl. unfold assign. simpl.
      rewrite decide_False; [reflexivity|].
      intros Hc. apply Hbc. eapply bshape_assign; eassumption. }
    split; [exact Hi|]. unfold cg. rewrite Hi. reflexivity.
Qed.

End CgShapes.

(** ** The small systems *)

Lemma nbv_dirichlet_zero nm ps sh bc pr f i j k :
  nbv_dirichlet (with_val (Unknown_spec nm ps sh bc pr) (zeros sh)) f i j k = 0.
Proof.
  unfold nbv_dirichlet. simpl. destruct sh as [[nx ny] nz].
  destruct f; simpl;
    match goal with |- (if ?c then _ else _) = _ => destruct c end;
    apply get_zeros.
Qed.

(** C2, the code at a failing input. The loop runs one pass less than the
    cap. With the default cap, the number of cells: on one cell [cg] returns
    the guess untouched, no pass having run; on two coupled cells it returns
    after a single pass with [(1/2, 0)], which a second pass would have
    turned into the solution [(2/3, -1/3)]. *)
Theorem cg_stops_one_short :
  (forall max_iter sh,
     length (range 1 (cap max_iter sh)) = Z.to_nat (cap max_iter sh - 1))
  /\ demo_cg (-1) one_cell = Ok (0%nat, one_cell)
  /\ demo_cg (-1) two_cells
     = Ok (0%nat, <[0%nat := mkArray (2, 1, 1)%nat [Q2Qc (1 # 2); qz 0]]> two_cells)
  /\ demo_cg 3 two_cells
     = Ok (0%nat,
           <[0%nat := mkArray (2, 1, 1)%nat [Q2Qc (2 # 3); Q2Qc (-1 # 3)]]> two_cells).
Proof.
  split; [intros; apply range_length|].
  split; [compute_done|]. split; compute_done.
Qed.

(** A zero on the diagonal: the first pass divides by it. *)
Lemma cg_zero_diagonal_example : demo_cg (-1) zero_diagonal = Err ZeroDivision.
Proof. compute_done. Qed.


(** C8 fails for a right-hand side of shape (1, 1, 1) against a field and
    an operator of shape (2, 1, 1): no error is raised, the single entry 5
    is used for both cells and [cg] returns [(5, 5)]. *)
Lemma cg_broadcasts_short_rhs :
  load short_rhs demo_b = Ok (mkArray (1, 1, 1)%nat [qz 5])
  /\ load short_rhs (val demo_phi) = Ok (mkArray (2, 1, 1)%nat [qz 0; qz 0])
  /\ load short_rhs (Matrix.C demo_a) = Ok (mkArray (2, 1, 1)%nat [qz 1; qz 1])
  /\ demo_cg (-1) short_rhs
     = Ok (0%nat, <[0%nat := mkArray (2, 1, 1)%nat [qz 5; qz 5]]> short_rhs)
  /\ ~ (exists e, demo_cg (-1) short_rhs = Err e).
Proof.
  assert (H : demo_cg (-1) short_rhs
              = Ok (0%nat, <[0%nat := mkArray (2, 1, 1)%nat [qz 5; qz 5]]> short_rhs))
    by compute_done.
  split; [reflexivity|]. split; [reflexivity|]. split; [reflexivity|].
  split; [exact H|].
  intros (e & He). rewrite H in He. discriminate He.
Qed.

Lemma cg_frame_witness :
  demo_cg 3 two_cells
  = Ok (0%nat,
        <[0%nat := mkArray (2, 1, 1)%nat [Q2Qc (2 # 3); Q2Qc (-1 # 3)]]> two_cells)
  /\ 0%nat = val demo_phi
  /\ load (<[0%nat := mkArray (2, 1, 1)%nat [Q2Qc (2 # 3); Q2Qc (-1 # 3)]]> two_cells)
       (old demo_phi)
     = load two_cells (old demo_phi)
  /\ load_matrix
       (<[0%nat := mkArray (2, 1, 1)%nat [Q2Qc (2 # 3); Q2Qc (-1 # 3)]]> two_cells)
       demo_a
     = load_matrix two_cells demo_a
  /\ load (<[0%nat := mkArray (2, 1, 1)%nat [Q2Qc (2 # 3); Q2Qc (-1 # 3)]]> two_cells)
       demo_b
     = load two_cells demo_b.
Proof.
  assert (H : demo_cg 3 two_cells
              = Ok (0%nat,
                    <[0%nat := mkArray (2, 1, 1)%nat [Q2Qc (2 # 3); Q2Qc (-1 # 3)]]>
                      two_cells)) by compute_done.
  split; [exact H|].
  unfold demo_cg, cg_spec in H.
  destruct (cg_frame _ _ _ _ _ _ _ _ _ _ _ _ _ _ _ H)
    as (Hv & _ & Hold & _ & Ha & Hb).
  split; [exact Hv|]. split; [apply Hold; discriminate|].
  split; [apply Ha; repeat constructor; discriminate | apply Hb; discriminate].
Defined.

(** Evaluate both sides. *)
Ltac run := vm_compute; reflexivity.

Lemma cg_early_exit_witness :
  exists l0 xv l s1 l1 rho res s2,
    cg_init (mat_vec_bnd_spec nbv_dirichlet) Unknown_spec
      demo_a demo_phi demo_b two_cells = Ok l0
    /\ load two_cells (val demo_phi) = Ok xv
    /\ range 1 (cap 9 (a_shape xv)) = [1%Z] ++ 2%Z :: range 3 9
    /\ Unconverged (mat_vec_bnd_spec nbv_dirichlet) vec_vec_spec Surd norm_spec
         surd_lt demo_a (val demo_phi) demo_tol [1%Z] l0 two_cells l s1
    /\ cg_update (mat_vec_bnd_spec nbv_dirichlet) vec_vec_spec Surd norm_spec
         demo_a (val demo_phi) 2 l s1 = Ok (l1, rho, res, s2)
    /\ surd_lt res demo_tol = true
    /\ demo_cg 9 two_cells = Ok (val demo_phi, s2).
Proof.
  do 8 eexists.
  split; [run|]. split; [run|]. split; [run|].
  split.
  { eapply unconv_cons; [run | run | apply unconv_nil]. }
  split; [run|]. split; [run|].
  unfold demo_cg, cg_spec.
  eapply (cg_early_exit (mat_vec_bnd_spec nbv_dirichlet) vec_vec_spec Surd
            norm_spec surd_lt Unknown_spec demo_a demo_phi demo_b demo_tol
            false 9 two_cells _ _ [1%Z] 2%Z (range 3 9)).
  - run.
  - run.
  - run.
  - eapply unconv_cons; [run | run | apply unconv_nil].
  - run.
  - run.
Defined.

Lemma cg_exhausted_witness :
  exists l0 xv l1 s1,
    cg_init (mat_vec_bnd_spec nbv_dirichlet) Unknown_spec
      demo_a demo_phi demo_b two_cells = Ok l0
    /\ load two_cells (val demo_phi) = Ok xv
    /\ Unconverged (mat_vec_bnd_spec nbv_dirichlet) vec_vec_spec Surd norm_spec
         surd_lt demo_a (val demo_phi) demo_tol
         (range 1 (cap (-1) (a_shape xv))) l0 two_cells l1 s1
    /\ demo_cg (-1) two_cells = Ok (val demo_phi, s1).
Proof.
  do 4 eexists.
  split; [run|]. split; [run|].
  split.
  { eapply unconv_cons; [run | run | apply unconv_nil]. }
  unfold demo_cg, cg_spec.
  refine (proj1 (cg_exhausted (mat_vec_bnd_spec nbv_dirichlet) vec_vec_spec Surd
            norm_spec surd_lt Unknown_spec demo_a demo_phi demo_b demo_tol
            false (-1) two_cells _ _ _ _) _ _ _).
  - run.
  - run.
  - eapply unconv_cons; [run | run | apply unconv_nil].
Defined.

Lemma cg_recurrence_witness :
  exists aC0 xv0 l s l' rho res s',
    load two_cells (Matrix.C demo_a) = Ok aC0
    /\ load two_cells (val demo_phi) = Ok xv0
    /\ a_shape aC0 = a_shape xv0
    /\ AtLoopHead (mat_vec_bnd_spec nbv_dirichlet) vec_vec_spec Surd norm_spec
         surd_lt Unknown_spec demo_a demo_phi demo_b demo_tol 9 two_cells
         (2%Z :: range 3 9) l s
    /\ cg_update (mat_vec_bnd_spec nbv_dirichlet) vec_vec_spec Surd norm_spec
         demo_a (val demo_phi) 2 l s = Ok (l', rho, res, s')
    /\ (exists av xv x',
          load_matrix s demo_a = Ok av /\ load s (val demo_phi) = Ok xv
          /\ pcg_iteration (mat_vec_bnd_spec nbv_dirichlet) vec_vec_spec av
               (l_p l) false xv (l_r l) (val (l_p l)) (l_rho_old l)
             = Ok (x', l_r l', val (l_p l'), l_q l', rho)
          /\ s' = <[val demo_phi := x']> s).
Proof.
  do 8 eexists.
  split; [run|]. split; [run|]. split; [run|].
  split.
  { eapply head_next.
    - eapply (head_first _ _ _ _ _ _ demo_a demo_phi demo_b demo_tol 9 two_cells _
              (mkArray (2, 1, 1)%nat [qz 0; qz 0])); run.
    - run. }
  split; [run|].
  refine (proj1 (cg_recurrence (mat_vec_bnd_spec nbv_dirichlet) vec_vec_spec Surd
            norm_spec surd_lt Unknown_spec demo_a demo_phi demo_b demo_tol false 9
            two_cells _ _ 2%Z (range 3 9) _ _ _ _ _ _ _ _ _ _ _ _ _)).
  - apply mat_vec_bnd_spec_shape.
  - apply Unknown_spec_shape.
  - run.
  - run.
  - run.
  - eapply head_next.
    + eapply (head_first _ _ _ _ _ _ demo_a demo_phi demo_b demo_tol 9 two_cells _
              (mkArray (2, 1, 1)%nat [qz 0; qz 0])); run.
    + run.
  - run.
Defined.


Lemma cg_jacobi_preconditioning_witness :
  exists aC0 xv0 l,
    load two_cells (Matrix.C demo_a) = Ok aC0
    /\ load two_cells (val demo_phi) = Ok xv0
    /\ a_shape aC0 = a_shape xv0
    /\ AtLoopHead (mat_vec_bnd_spec nbv_dirichlet) vec_vec_spec Surd norm_spec
         surd_lt Unknown_spec demo_a demo_phi demo_b demo_tol (-1) two_cells
         [1%Z] l two_cells
    /\ exists aC,
         load two_cells (Matrix.C demo_a) = Ok aC
         /\ Forall (fun c => c <> 0) (a_data aC)
         /\ precondition l aC
            = Ok (mkArray (a_shape (l_r l))
                    (zip_with Qcdiv (a_data (l_r l)) (a_data aC))).
Proof.
  exists (mkArray (2, 1, 1)%nat [qz 2; qz 2]), (mkArray (2, 1, 1)%nat [qz 0; qz 0]).
  eexists.
  assert (HC : load two_cells (Matrix.C demo_a)
               = Ok (mkArray (2, 1, 1)%nat [qz 2; qz 2])) by reflexivity.
  assert (Hx : load two_cells (val demo_phi)
               = Ok (mkArray (2, 1, 1)%nat [qz 0; qz 0])) by reflexivity.
  split; [exact HC|]. split; [exact Hx|]. split; [reflexivity|].
  match goal with
  | |- ?A /\ _ =>
      assert (Hh : A);
      [ eapply (head_first _ _ _ _ _ _ demo_a demo_phi demo_b demo_tol (-1)
                  two_cells _ (mkArray (2, 1, 1)%nat [qz 0; qz 0])); run
      | split; [exact Hh|] ]
  end.
  destruct (cg_jacobi_preconditioning _ _ _ _ _ _ _ _ _ _ false _ _ _ _ _ _ _ _
              HC Hx eq_refl Hh) as (_ & aC & HaC & _ & Hnz & _).
  exists aC. split; [exact HaC|].
  assert (Hn : Forall (fun c => c <> 0) (a_data aC)).
  { rewrite HC in HaC. injection HaC as <-. repeat constructor; discriminate. }
  split; [exact Hn | apply Hnz, Hn].
Defined.


Lemma cg_zero_residual_witness :
  demo_cg 2 solved_cell = Err ZeroDivision
  /\ sdiv 0 0 = Err ZeroDivision.
Proof.
  unfold demo_cg.
  assert (Hav : load_matrix solved_cell demo_a
                = Ok (Matrix.mk (mkArray (1, 1, 1)%nat [qz 1])
                        (mkArray (1, 1, 1)%nat [qz 0]) (mkArray (1, 1, 1)%nat [qz 0])
                        (zeros (1, 1, 1)%nat) (zeros (1, 1, 1)%nat)
                        (zeros (1, 1, 1)%nat) (zeros (1, 1, 1)%nat)))
    by reflexivity.
  destruct (load_unknown solved_cell demo_phi) as [phiv|] eqn:Hphi;
    [|discriminate Hphi].
  assert (Hx : val phiv = mkArray (1, 1, 1)%nat [qz 3]).
  { vm_compute in Hphi. injection Hphi as <-. reflexivity. }
  assert (Hb : load solved_cell demo_b = Ok (mkArray (1, 1, 1)%nat [qz 3]))
    by reflexivity.
  assert (Hex : exists Ax, mat_vec_bnd_spec nbv_dirichlet
                             (Matrix.mk (mkArray (1, 1, 1)%nat [qz 1])
                                (mkArray (1, 1, 1)%nat [qz 0]) (mkArray (1, 1, 1)%nat [qz 0])
                                (zeros (1, 1, 1)%nat) (zeros (1, 1, 1)%nat)
                                (zeros (1, 1, 1)%nat) (zeros (1, 1, 1)%nat)) phiv = Ok Ax
                           /\ a_data Ax = a_data (mkArray (1, 1, 1)%nat [qz 3])).
  { vm_compute in Hphi. injection Hphi as <-.
    eexists. split; [run | compute_done]. }
  destruct (cg_zero_residual nbv_dirichlet demo_a demo_phi demo_b demo_tol
              false 2 solved_cell (1, 1, 1)%nat _ _ _ Hav Hphi Hb)
    as (_ & _ & _ & _ & _ & _ & Hdiv & Hcg).
  - rewrite Hx. reflexivity.
  - reflexivity.
  - reflexivity.
  - reflexivity.
  - repeat constructor. discriminate.
  - exact Hex.
  - intros. apply nbv_dirichlet_zero.
  - discriminate.
  - split; [exact Hcg | exact Hdiv].
Defined.

Lemma cg_shapes_witness :
  exists xv bv av phiv Ax,
    load short_rhs (val demo_phi) = Ok xv
    /\ load short_rhs demo_b = Ok bv
    /\ load_matrix short_rhs demo_a = Ok av
    /\ load_unknown short_rhs demo_phi = Ok phiv
    /\ mat_vec_bnd_spec nbv_dirichlet av phiv = Ok Ax
    /\ a_shape Ax = a_shape xv
    /\ a_shape bv <> a_shape xv
    /\ bshape (a_shape xv) (a_shape bv) = Some (a_shape xv)
    /\ cg_init (mat_vec_bnd_spec nbv_dirichlet) Unknown_spec
         demo_a demo_phi demo_b short_rhs
       = Ok (mkLocals
               (Unknown_spec "vec_p" (pos demo_phi) (a_shape xv) (-1) (per demo_phi))
               (zeros (a_shape xv))
               (mkArray (a_shape xv)
                  (zip_with Qcminus (stretch bv (a_shape xv)) (a_data Ax)))
               (zeros (a_shape xv)) None).
Proof.
  assert (Hx : load short_rhs (val demo_phi)
               = Ok (mkArray (2, 1, 1)%nat [qz 0; qz 0])) by reflexivity.
  assert (Hb : load short_rhs demo_b = Ok (mkArray (1, 1, 1)%nat [qz 5]))
    by reflexivity.
  destruct (load_matrix short_rhs demo_a) as [av|] eqn:Hav;
    [|vm_compute in Hav; discriminate Hav].
  destruct (load_unknown short_rhs demo_phi) as [phiv|] eqn:Hphi;
    [|vm_compute in Hphi; discriminate Hphi].
  assert (Hv : val phiv = mkArray (2, 1, 1)%nat [qz 0; qz 0]).
  { apply load_unknown_val in Hphi as (Hphi & _). rewrite Hx in Hphi.
    injection Hphi as <-. reflexivity. }
  destruct (mat_vec_bnd_spec nbv_dirichlet av phiv) as [Ax|] eqn:HAx.
  2: { unfold mat_vec_bnd_spec in HAx. rewrite Hv in HAx.
       vm_compute in Hav. injection Hav as <-. vm_compute in HAx.
       discriminate HAx. }
  assert (HAxs : a_shape Ax = a_shape (mkArray (2, 1, 1)%nat [qz 0; qz 0])).
  { apply mat_vec_bnd_spec_shape in HAx. rewrite HAx, Hv. reflexivity. }
  exists (mkArray (2, 1, 1)%nat [qz 0; qz 0]), (mkArray (1, 1, 1)%nat [qz 5]),
         av, phiv, Ax.
  split; [exact Hx|]. split; [exact Hb|]. split; [reflexivity|].
  split; [reflexivity|]. split; [exact HAx|]. split; [exact HAxs|].
  split; [discriminate|]. split; [reflexivity|].
  exact (proj1 (cg_shapes (mat_vec_bnd_spec nbv_dirichlet) vec_vec_spec Surd
                  norm_spec surd_lt Unknown_spec demo_a demo_phi demo_b demo_tol
                  false (-1) short_rhs _ _ _ _ _ Hx Hb Hav Hphi HAx HAxs)
           eq_refl).
Defined.

(** ** [tecplot] *)

Section TecplotProperties.

Variable fmt_e : Qc -> string.
Variable avg_x avg_y avg_z : Array -> result Array.
Variable cat_x cat_y cat_z : list Array -> result Array.

Local Abbreviation values := (cell_values avg_x avg_y avg_z cat_x cat_y cat_z).
Local Abbreviation export := (tecplot fmt_e avg_x avg_y avg_z cat_x cat_y cat_z).

(** What the export writes for an object of class [Unknown], by position:
    a cell-centred one as it is, a staggered one averaged along its axis
    over the low boundary plane, the values and the high boundary plane. *)
Lemma cell_values_unknown (u : Unknown Array) :
  values (key_of_unknown u)
  = match pos u with
    | Position.C | Position.N => Ok (val u)
    | Position.X =>
        do c <- cat_x [first_x (Bnd.val (bnd u Compass.W)); val u;
                       first_x (Bnd.val (bnd u Compass.E))];
        avg_x c
    | Position.Y =>
        do c <- cat_y [first_y (Bnd.val (bnd u Compass.S)); val u;
                       first_y (Bnd.val (bnd u Compass.N))];
        avg_y c
    | Position.Z =>
        do c <- cat_z [first_z (Bnd.val (bnd u Compass.B)); val u;
                       first_z (Bnd.val (bnd u Compass.T))];
        avg_z c
    end.
Proof. unfold cell_values, key_of_unknown. simpl. destruct (pos u); reflexivity. Qed.

(** The header lists the nodal variables first and tags the columns after
    the three coordinates accordingly. *)
Lemma counts_partition (vars : list Key.t) :
  (c_nod vars + c_cel vars = length vars)%nat.
Proof.
  unfold c_nod, c_cel. induction vars as [|k vars IH]; [reflexivity|].
  rewrite !filter_cons. destruct (is_nodal k);
    repeat case_decide; simpl; try congruence; lia.
Qed.

(** A plain array whose shape is that of a variable staggered in x gets
    position [X] and no boundary conditions. *)
Lemma staggered_array_key (nx ny nz : Z) (c : nat) (a : Array) :
  a_shape a = (Z.to_nat (nx - 1), Z.to_nat ny, Z.to_nat nz) ->
  (1 <= nx)%Z -> (0 <= ny)%Z -> (0 <= nz)%Z ->
  exists nm, keys_of_arrays nx ny nz c [a] = [Key.mk nm Position.X a None].
Proof.
  intros Hs Hx Hy Hz. eexists. simpl. unfold array_pos. rewrite Hs.
  rewrite !Z2Nat.id by lia. rewrite !Z.eqb_refl. simpl.
  replace (nx - 1 =? nx)%Z with false by (symmetry; apply Z.eqb_neq; lia).
  replace (nx - 1 =? nx + 1)%Z with false by (symmetry; apply Z.eqb_neq; lia).
  simpl. reflexivity.
Qed.

(** C9, the code at a failing input. On a grid of 2 x 1 x 1 cells, an array
    of shape (1, 1, 1), that of a variable staggered in x, handed over in
    [arrays]: the export reads its position off the shape, finds no boundary
    conditions to average with, and ends in a [TypeError] instead of writing
    averaged values. *)
Theorem tecplot_staggered_array :
  keys_of_arrays 2 1 1 0 [mkArray (1, 1, 1)%nat [qz 5]]
  = [Key.mk "pyns-var-00" Position.X (mkArray (1, 1, 1)%nat [qz 5]) None]
  /\ export "out" ([qz 0; qz 1; qz 2], [qz 0; qz 1], [qz 0; qz 1])
       [] [mkArray (1, 1, 1)%nat [qz 5]] []
     = Err TypeError.
Proof. split; reflexivity. Qed.

End TecplotProperties.

(** ** Further properties of [cg] *)

Lemma range_empty (lo hi : Z) : (hi <= lo)%Z -> range lo hi = [].
Proof. intros H. unfold range. replace (Z.to_nat (hi - lo)) with 0%nat by lia. reflexivity. Qed.

Lemma map_seq_offset {A : Type} (f : nat -> A) (a n : nat) :
  map f (seq a n) = map (fun k => f (a + k)%nat) (seq 0 n).
Proof.
  revert f a. induction n as [|n IH]; intros f a; simpl; [reflexivity|].
  rewrite Nat.add_0_r. f_equal.
  rewrite (IH f (S a)), (IH (fun k => f (a + k)%nat) 1%nat).
  apply map_ext. intros k. f_equal. lia.
Qed.

Lemma range_split (lo mid hi : Z) :
  (lo <= mid <= hi)%Z -> range lo hi = range lo mid ++ range mid hi.
Proof.
  intros H. unfold range.
  replace (Z.to_nat (hi - lo)) with (Z.to_nat (mid - lo) + Z.to_nat (hi - mid))%nat by lia.
  rewrite seq_app, map_app. f_equal. simpl.
  rewrite map_seq_offset. apply map_ext. intros k. lia.
Qed.

Lemma range_cons (lo hi : Z) : (lo < hi)%Z -> range lo hi = lo :: range (lo + 1) hi.
Proof.
  intros H. rewrite (range_split lo (lo + 1) hi) by lia.
  unfold range at 1. replace (Z.to_nat (lo + 1 - lo)) with 1%nat by lia.
  simpl. f_equal. lia.
Qed.

Lemma range_prefix (lo hi i : Z) (before rest : list Z) :
  range lo hi = before ++ i :: rest ->
  before = range lo i /\ (lo <= i < hi)%Z.
Proof.
  intros H.
  assert (Hi : range lo hi !! length before = Some i).
  { rewrite H, lookup_app_r by lia. rewrite Nat.sub_diag. reflexivity. }
  pose proof (lookup_lt_Some _ _ _ Hi) as Hlt. rewrite range_length in Hlt.
  apply range_lookup in Hi.
  assert (Hb : (lo <= i < hi)%Z) by lia. split; [|exact Hb].
  rewrite (range_split lo i hi) in H by lia.
  apply app_inj_1 in H; [symmetry; tauto|].
  rewrite range_length. lia.
Qed.

Lemma no_NameError_bind {A B : Type} (m : result A) (k : A -> result B) :
  m <> Err NameError ->
  (forall a, m = Ok a -> k a <> Err NameError) ->
  rbind m k <> Err NameError.
Proof.
  destruct m as [a|e]; simpl; intros H1 H2; [apply H2; reflexivity|].
  intros [= ->]. apply H1. reflexivity.
Qed.

Lemma load_no_NameError (s : store) (l : loc) : load s l <> Err NameError.
Proof. unfold load. destruct (s !! l); discriminate. Qed.

Lemma load_matrix_no_NameError (s : store) (a : Matrix.t loc) :
  load_matrix s a <> Err NameError.
Proof.
  unfold load_matrix.
  repeat (apply no_NameError_bind; [apply load_no_NameError | intros ? _]).
  discriminate.
Qed.

Lemma load_unknown_no_NameError (s : store) (u : Unknown loc) :
  load_unknown s u <> Err NameError.
Proof.
  unfold load_unknown, load_bnd.
  repeat (apply no_NameError_bind;
          [first [apply load_no_NameError
                 | repeat (apply no_NameError_bind;
                           [apply load_no_NameError | intros ? _]); discriminate]
          | intros ? _]).
  discriminate.
Qed.

Lemma assign_no_NameError (t v : Array) : assign t v <> Err NameError.
Proof. unfold assign. case_decide; discriminate. Qed.

Lemma broadcast2_no_NameError f (a b : Array) : broadcast2 f a b <> Err NameError.
Proof. unfold broadcast2. destruct (bshape _ _); discriminate. Qed.

Lemma inplace2_no_NameError f (t v : Array) : inplace2 f t v <> Err NameError.
Proof. unfold inplace2. case_decide; discriminate. Qed.

Lemma arr_div_no_NameError (a b : Array) : arr_div a b <> Err NameError.
Proof.
  unfold arr_div. destruct (bshape _ _); [|discriminate].
  destruct (existsb _ _); discriminate.
Qed.

Lemma sdiv_no_NameError (x y : Qc) : sdiv x y <> Err NameError.
Proof. unfold sdiv. destruct (Qc_is_zero y); discriminate. Qed.

Section CgFurther.

Variable mat_vec_bnd : Matrix.t Array -> Unknown Array -> result Array.
Variable vec_vec : Array -> Array -> result Qc.
Variable Res : Type.
Variable norm : Array -> result Res.
Variable res_lt : Res -> Qc -> bool.
Variable Unknown_new :
  string -> Position.t -> shape -> Z -> bool * bool * bool -> Unknown Array.

Local Abbreviation init := (cg_init mat_vec_bnd Unknown_new).
Local Abbreviation update := (cg_update mat_vec_bnd vec_vec Res norm).
Local Abbreviation body := (cg_body mat_vec_bnd vec_vec Res norm res_lt).
Local Abbreviation loop := (cg_loop mat_vec_bnd vec_vec Res norm res_lt).
Local Abbreviation solve := (cg mat_vec_bnd vec_vec Res norm res_lt Unknown_new).
Local Abbreviation unconverged := (Unconverged mat_vec_bnd vec_vec Res norm res_lt).

(** X1. A cap of at most 1 (a [max_iter] of 1, 0 or below -1, or the
    default on a field of at most one cell) leaves no index for the loop:
    once the residual is initialised, [cg] returns [phi.val] at once and
    the store is what it was. *)
Theorem cg_no_pass a phi b tol verbose max_iter s l xv :
  init a phi b s = Ok l ->
  load s (val phi) = Ok xv ->
  (cap max_iter (a_shape xv) <= 1)%Z ->
  solve a phi b tol verbose max_iter s = Ok (val phi, s).
Proof.
  intros Hi Hx Hcap.
  erewrite solve_unfold by eassumption.
  rewrite range_empty by exact Hcap. reflexivity.
Qed.

Lemma loop_shape a x tol idx : forall l s v s' xv,
  loop a x tol idx l s = Ok (v, s') ->
  load s x = Ok xv ->
  exists xv', load s' x = Ok xv' /\ a_shape xv' = a_shape xv /\ dom s' = dom s.
Proof.
  induction idx as [|i idx IH]; intros l s v s' xv H Hx; simpl in H.
  - injection H as <- <-. eauto.
  - apply rbind_Ok in H as ([f s1] & Hb & H).
    destruct (body_cases _ _ _ _ _ _ _ _ _ _ _ _ _ Hb) as (l' & rho & res & Hu & Hf).
    destruct (update_store _ _ _ _ _ _ _ _ _ _ _ _ _ Hu) as (xv0 & xv1 & Hx0 & Hs1 & ->).
    rewrite Hx in Hx0. injection Hx0 as <-.
    assert (Hx1 : load (<[x := xv1]> s) x = Ok xv1).
    { unfold load. rewrite lookup_insert_eq. reflexivity. }
    assert (Hdom : dom (<[x := xv1]> s) = dom s).
    { apply dom_insert_lookup_L. unfold load in Hx.
      destruct (s !! x); [eauto | discriminate]. }
    destruct Hf as [[_ ->] | [_ ->]].
    + injection H as <- <-. eauto.
    + destruct (IH _ _ _ _ _ H Hx1) as (xv' & Hx' & Hs' & Hd').
      exists xv'. split; [exact Hx'|]. split; congruence.
Qed.

(** X2. A call of [cg] that returns leaves at [phi.val] an array of the
    shape it had before, and the store holds arrays at the same locations
    as before: nothing is added, nothing removed, nothing reshaped. *)
Theorem cg_keeps_shape a phi b tol verbose max_iter s v s' xv :
  solve a phi b tol verbose max_iter s = Ok (v, s') ->
  load s (val phi) = Ok xv ->
  exists xv', load s' (val phi) = Ok xv'
              /\ a_shape xv' = a_shape xv
              /\ dom s' = dom s.
Proof.
  intros H Hx. unfold cg in H.
  apply rbind_Ok in H as (l & Hi & H). rewrite Hx in H. simpl in H.
  eapply loop_shape; eassumption.
Qed.

(** No pass reads [rho_old] unbound, provided it is the first (index 1) or
    [rho_old] is bound. *)
Lemma update_no_NameError a x i l s :
  (forall av u, mat_vec_bnd av u <> Err NameError) ->
  (forall u v, vec_vec u v <> Err NameError) ->
  (forall r, norm r <> Err NameError) ->
  i = 1%Z \/ l_rho_old l <> None ->
  update a x i l s <> Err NameError.
Proof.
  intros Hm Hv Hn Hi. unfold cg_update.
  apply no_NameError_bind; [apply load_no_NameError | intros aC _].
  apply no_NameError_bind.
  { unfold precondition.
    apply no_NameError_bind; [apply arr_div_no_NameError | intros ? _].
    apply assign_no_NameError. }
  intros z _.
  apply no_NameError_bind; [apply Hv | intros rho _].
  apply no_NameError_bind.
  { unfold direction. destruct (Z.eqb_spec i 1) as [_|Hne].
    - apply assign_no_NameError.
    - destruct Hi as [Hi|Hi]; [contradiction|].
      unfold read_rho_old. destruct (l_rho_old l) as [ro|]; [|contradiction].
      simpl.
      apply no_NameError_bind; [apply sdiv_no_NameError | intros ? _].
      apply no_NameError_bind; [apply broadcast2_no_NameError | intros ? _].
      apply assign_no_NameError. }
  intros pv _.
  apply no_NameError_bind; [apply load_matrix_no_NameError | intros av _].
  apply no_NameError_bind; [apply Hm | intros Ap _].
  apply no_NameError_bind; [apply assign_no_NameError | intros q _].
  apply no_NameError_bind; [apply Hv | intros pq _].
  apply no_NameError_bind; [apply sdiv_no_NameError | intros alfa _].
  apply no_NameError_bind; [apply load_no_NameError | intros xv _].
  apply no_NameError_bind; [apply inplace2_no_NameError | intros xv' _].
  apply no_NameError_bind; [apply inplace2_no_NameError | intros r _].
  apply no_NameError_bind; [apply Hn | intros res _].
  discriminate.
Qed.

Lemma loop_no_NameError a x tol idx :
  (forall av u, mat_vec_bnd av u <> Err NameError) ->
  (forall u v, vec_vec u v <> Err NameError) ->
  (forall r, norm r <> Err NameError) ->
  forall l s,
    l_rho_old l <> None \/ (forall i rest, idx = i :: rest -> i = 1%Z) ->
    loop a x tol idx l s <> Err NameError.
Proof.
  intros Hm Hv Hn. induction idx as [|i idx IH]; intros l s Hl; simpl.
  - discriminate.
  - apply no_NameError_bind.
    + unfold cg_body. apply no_NameError_bind.
      * apply update_no_NameError; try assumption.
        destruct Hl as [Hl|Hl]; [right; exact Hl | left; eapply Hl; reflexivity].
      * intros [[[l' rho] res] s'] _. destruct (res_lt res tol); discriminate.
    + intros [f s'] Hb.
      destruct (body_cases _ _ _ _ _ _ _ _ _ _ _ _ _ Hb) as (l' & rho & res & _ & Hf).
      destruct Hf as [[_ ->] | [_ ->]]; [discriminate|].
      apply IH. left. simpl. discriminate.
Qed.

(** X3. [rho_old], which the loop reads only when [i] is not 1 and binds
    only at the end of a pass, is never read unbound: whatever the
    arguments, [cg] does not end in a [NameError], as long as the sister
    modules do not produce one of their own. *)
Theorem cg_rho_old_bound a phi b tol verbose max_iter s :
  (forall av u, mat_vec_bnd av u <> Err NameError) ->
  (forall u v, vec_vec u v <> Err NameError) ->
  (forall r, norm r <> Err NameError) ->
  cg mat_vec_bnd vec_vec Res norm res_lt Unknown_new a phi b tol verbose max_iter s
  <> Err NameError.
Proof.
  intros Hm Hv Hn. unfold cg.
  apply no_NameError_bind.
  - unfold cg_init.
    apply no_NameError_bind; [apply load_no_NameError | intros xv _].
    apply no_NameError_bind; [apply load_no_NameError | intros bv _].
    apply no_NameError_bind; [apply load_matrix_no_NameError | intros av _].
    apply no_NameError_bind; [apply load_unknown_no_NameError | intros phiv _].
    apply no_NameError_bind; [apply Hm | intros Ax _].
    apply no_NameError_bind; [apply broadcast2_no_NameError | intros d _].
    apply no_NameError_bind; [apply assign_no_NameError | intros r _].
    discriminate.
  - intros l _.
    apply no_NameError_bind; [apply load_no_NameError | intros xv _].
    apply loop_no_NameError; try assumption.
    right. intros i rest Hr. eapply range_head. exact Hr.
Qed.

(** X4. Once a run has converged at pass [i], the cap no longer matters:
    with any other [max_iter] whose cap still admits pass [i], [cg] goes
    through the same passes and returns the same store. *)
Theorem cg_converged_any_cap a phi b tol verbose max_iter max_iter' s l0 xv
    before i rest l s1 l1 rho res s2 :
  init a phi b s = Ok l0 ->
  load s (val phi) = Ok xv ->
  range 1 (cap max_iter (a_shape xv)) = before ++ i :: rest ->
  unconverged a (val phi) tol before l0 s l s1 ->
  update a (val phi) i l s1 = Ok (l1, rho, res, s2) ->
  res_lt res tol = true ->
  (i < cap max_iter' (a_shape xv))%Z ->
  solve a phi b tol verbose max_iter' s = Ok (val phi, s2)
  /\ solve a phi b tol verbose max_iter' s = solve a phi b tol verbose max_iter s.
Proof.
  intros Hi Hx Hr Hun Hu Hlt Hcap.
  destruct (range_prefix _ _ _ _ _ Hr) as (Hb & Hlo & _).
  assert (Hend : forall idx,
            loop a (val phi) tol (before ++ i :: idx) l0 s = Ok (val phi, s2)).
  { intros idx. erewrite loop_unconverged by eassumption. simpl.
    erewrite body_return by eassumption. reflexivity. }
  erewrite !solve_unfold by eassumption.
  rewrite Hr, Hend.
  rewrite (range_split 1 i (cap max_iter' (a_shape xv))) by lia.
  rewrite (range_cons i) by lia. rewrite <- Hb, Hend. auto.
Qed.

End CgFurther.

(** The sister modules as specified never end in a [NameError]. *)
Lemma mat_vec_bnd_spec_no_NameError nbv av u :
  mat_vec_bnd_spec nbv av u <> Err NameError.
Proof. unfold mat_vec_bnd_spec. destruct (same_shapes av _); discriminate. Qed.

Lemma vec_vec_spec_no_NameError u v : vec_vec_spec u v <> Err NameError.
Proof. unfold vec_vec_spec. destruct (shape_eqb _ _); discriminate. Qed.

Lemma norm_spec_no_NameError r : norm_spec r <> Err NameError.
Proof.
  unfold norm_spec, vec_vec_spec. destruct (shape_eqb _ _); discriminate.
Qed.

Lemma cg_no_pass_witness : demo_cg (-1) one_cell = Ok (val demo_phi, one_cell).
Proof.
  unfold demo_cg, cg_spec.
  eapply (cg_no_pass (mat_vec_bnd_spec nbv_dirichlet) vec_vec_spec Surd
            norm_spec surd_lt Unknown_spec demo_a demo_phi demo_b demo_tol
            false (-1) one_cell _ (mkArray (1, 1, 1)%nat [qz 0])).
  - run.
  - run.
  - vm_compute. discriminate.
Defined.

Lemma cg_keeps_shape_witness :
  exists xv',
    load (<[0%nat := mkArray (2, 1, 1)%nat [Q2Qc (2 # 3); Q2Qc (-1 # 3)]]> two_cells)
      (val demo_phi) = Ok xv'
    /\ a_shape xv' = (2, 1, 1)%nat
    /\ dom (<[0%nat := mkArray (2, 1, 1)%nat [Q2Qc (2 # 3); Q2Qc (-1 # 3)]]> two_cells)
       = dom two_cells.
Proof.
  assert (H : demo_cg 3 two_cells
              = Ok (0%nat,
                    <[0%nat := mkArray (2, 1, 1)%nat [Q2Qc (2 # 3); Q2Qc (-1 # 3)]]>
                      two_cells)) by compute_done.
  assert (Hx : load two_cells (val demo_phi)
               = Ok (mkArray (2, 1, 1)%nat [qz 0; qz 0])) by run.
  unfold demo_cg, cg_spec in H.
  exact (cg_keeps_shape _ _ _ _ _ _ _ _ _ _ _ _ _ _ _ _ H Hx).
Defined.

Lemma cg_rho_old_bound_witness :
  exists l0 l s1 rho_old,
    cg_init (mat_vec_bnd_spec nbv_dirichlet) Unknown_spec
      demo_a demo_phi demo_b two_cells = Ok l0
    /\ Unconverged (mat_vec_bnd_spec nbv_dirichlet) vec_vec_spec Surd norm_spec
         surd_lt demo_a (val demo_phi) demo_tol [1%Z] l0 two_cells l s1
    /\ read_rho_old l = Ok rho_old
    /\ demo_cg 9 two_cells <> Err NameError.
Proof.
  do 4 eexists.
  split; [run|].
  split.
  { eapply unconv_cons; [run | run | apply unconv_nil]. }
  split; [run|].
  unfold demo_cg, cg_spec.
  exact (cg_rho_old_bound (mat_vec_bnd_spec nbv_dirichlet) vec_vec_spec Surd
           norm_spec surd_lt Unknown_spec demo_a demo_phi demo_b demo_tol false 9
           two_cells (mat_vec_bnd_spec_no_NameError nbv_dirichlet)
           vec_vec_spec_no_NameError norm_spec_no_NameError).
Defined.

Lemma cg_converged_any_cap_witness :
  exists s2,
    demo_cg 3 two_cells = Ok (val demo_phi, s2)
    /\ demo_cg 3 two_cells = demo_cg 9 two_cells.
Proof.
  eexists. unfold demo_cg, cg_spec.
  eapply (cg_converged_any_cap (mat_vec_bnd_spec nbv_dirichlet) vec_vec_spec
            Surd norm_spec surd_lt Unknown_spec demo_a demo_phi demo_b demo_tol
            false 9 3 two_cells _ (mkArray (2, 1, 1)%nat [qz 0; qz 0])
            [1%Z] 2%Z (range 3 9)).
  - run.
  - run.
  - run.
  - eapply unconv_cons; [run | run | apply unconv_nil].
  - run.
  - run.
  - vm_compute. reflexivity.
Defined.

(** ** Further properties of [tecplot] *)

Lemma string_app_assoc (a b c : string) : ((a ++ b) ++ c = a ++ (b ++ c))%string.
Proof.
  induction a as [|x a IH]; [reflexivity|].
  unfold append; fold append. f_equal. exact IH.
Qed.

Lemma string_app_nil_r (a : string) : (a ++ EmptyString = a)%string.
Proof.
  induction a as [|x a IH]; [reflexivity|].
  unfold append; fold append. f_equal. exact IH.
Qed.

Lemma sequence_Ok {A : Type} (l : list A) : sequence (map Ok l) = Ok l.
Proof. induction l as [|x l IH]; simpl; [reflexivity | rewrite IH; reflexivity]. Qed.

Lemma map_flat_map {A B C : Type} (f : B -> C) (h : A -> list B) (l : list A) :
  map f (flat_map h l) = flat_map (fun x => map f (h x)) l.
Proof.
  induction l as [|x l IH]; simpl; [reflexivity|].
  rewrite map_app, IH. reflexivity.
Qed.

Lemma flat_map_map {A B C : Type} (f : B -> list C) (g : A -> B) (l : list A) :
  flat_map f (map g l) = flat_map (fun x => f (g x)) l.
Proof. induction l as [|x l IH]; simpl; [reflexivity | rewrite IH; reflexivity]. Qed.

Lemma range_0 (n : Z) : range 0 n = map Z.of_nat (seq 0 (Z.to_nat n)).
Proof. unfold range. rewrite Z.sub_0_r. apply map_ext. intros k. lia. Qed.

(** The list of attempts that [sweep] runs through, when each is known. *)
Lemma sweep_Ok (ni nj nk : Z) (f : nat -> nat -> nat -> result Qc)
    (g : nat -> nat -> nat -> Qc) :
  (forall i j k, (i < Z.to_nat ni)%nat -> (j < Z.to_nat nj)%nat ->
                 (k < Z.to_nat nk)%nat -> f i j k = Ok (g i j k)) ->
  sweep ni nj nk f
  = Ok (flat_map (fun k =>
          flat_map (fun j => map (fun i => g i j k) (seq 0 (Z.to_nat ni)))
            (seq 0 (Z.to_nat nj)))
          (seq 0 (Z.to_nat nk))).
Proof.
  intros H. unfold sweep. rewrite !range_0.
  rewrite <- sequence_Ok. f_equal.
  rewrite map_flat_map, flat_map_map.
  apply flat_map_ext_in. intros k Hk. apply in_seq in Hk.
  rewrite map_flat_map, flat_map_map.
  apply flat_map_ext_in. intros j Hj. apply in_seq in Hj.
  rewrite !map_map. apply map_ext_in. intros i Hi. apply in_seq in Hi.
  rewrite !Nat2Z.id. apply H; lia.
Qed.

Lemma coord_nth (l : list Qc) (i : nat) :
  (i < length l)%nat -> coord l i = Ok (nth i l 0).
Proof.
  intros H. unfold coord.
  destruct (nth_error l i) as [v|] eqn:E.
  - rewrite (nth_error_nth _ _ _ E). reflexivity.
  - apply nth_error_None in E. lia.
Qed.

Lemma nth_seq {A : Type} (l : list A) (d : A) :
  map (fun i => nth i l d) (seq 0 (length l)) = l.
Proof.
  induction l as [|x l IH]; [reflexivity|].
  cbn [length seq map nth]. rewrite <- seq_shift, map_map. cbn [nth].
  rewrite IH. reflexivity.
Qed.

(** A loop over the indices of a list, reading the list at each index, is
    a loop over its elements. *)
Lemma flat_map_over {A B : Type} (h : A -> list B) (l : list A) (d : A) :
  flat_map h l = flat_map (fun i => h (nth i l d)) (seq 0 (length l)).
Proof.
  rewrite <- (flat_map_map h (fun i => nth i l d)), nth_seq. reflexivity.
Qed.

Lemma map_over {A B : Type} (c : B) (l : list A) :
  map (fun _ => c) (seq 0 (length l)) = map (fun _ => c) l.
Proof.
  generalize 0%nat. induction l as [|x l IH]; intros n; [reflexivity|].
  cbn [length seq map]. rewrite IH. reflexivity.
Qed.

(** [sequence] ends in the one error its attempts can end in, as soon as
    one of them does. *)
Lemma sequence_Err {A : Type} (e : error) (l : list (result A)) :
  (forall m, In m l -> m = Err e \/ exists v, m = Ok v) ->
  (exists m, In m l /\ m = Err e) ->
  sequence l = Err e.
Proof.
  induction l as [|m l IH]; intros Hall (m' & Hin & ->); [destruct Hin|].
  cbn [sequence].
  destruct (Hall m (or_introl eq_refl)) as [-> | (v & ->)]; [reflexivity|].
  cbn [rbind]. destruct Hin as [Hm | Hin]; [discriminate|].
  rewrite IH; [reflexivity | | eauto].
  intros m'' H. apply Hall. right. exact H.
Qed.

Lemma sequence_map_Ok {A B : Type} (f : A -> result B) (g : A -> B) (l : list A) :
  (forall x, In x l -> f x = Ok (g x)) ->
  sequence (map f l) = Ok (map g l).
Proof.
  intros H. rewrite <- sequence_Ok, map_map. f_equal.
  apply map_ext_in. exact H.
Qed.

Lemma item_cases (a : Array) (i j k : nat) :
  item a i j k = Err IndexError \/ exists v, item a i j k = Ok v.
Proof.
  unfold item. destruct (a_shape a) as [[n1 n2] n3].
  destruct ((i <? n1)%nat && (j <? n2)%nat && (k <? n3)%nat); eauto.
Qed.

Lemma item_inside (a : Array) (nx ny nz i j k : nat) :
  covers a nx ny nz -> (i < nx)%nat -> (j < ny)%nat -> (k < nz)%nat ->
  item a i j k = Ok (get a i j k).
Proof.
  unfold covers, item. destruct (a_shape a) as [[n1 n2] n3].
  intros (H1 & H2 & H3) Hi Hj Hk.
  replace (i <? n1)%nat with true by (symmetry; apply Nat.ltb_lt; lia).
  replace (j <? n2)%nat with true by (symmetry; apply Nat.ltb_lt; lia).
  replace (k <? n3)%nat with true by (symmetry; apply Nat.ltb_lt; lia).
  reflexivity.
Qed.

Lemma item_corner (a : Array) (nx ny nz : nat) :
  ~ covers a (S nx) (S ny) (S nz) -> item a nx ny nz = Err IndexError.
Proof.
  unfold covers, item. destruct (a_shape a) as [[n1 n2] n3]. intros H.
  destruct (nx <? n1)%nat eqn:E1; [|reflexivity].
  destruct (ny <? n2)%nat eqn:E2; [|reflexivity].
  destruct (nz <? n3)%nat eqn:E3; [|reflexivity].
  apply Nat.ltb_lt in E1, E2, E3. exfalso. apply H. lia.
Qed.

Lemma sweep_covered (nx ny nz : nat) (a : Array) :
  covers a nx ny nz ->
  sweep (Z.of_nat nx) (Z.of_nat ny) (Z.of_nat nz) (item a)
  = Ok (grid_block nx ny nz a).
Proof.
  intros H. rewrite (sweep_Ok _ _ _ _ (get a)).
  - rewrite !Nat2Z.id. reflexivity.
  - rewrite !Nat2Z.id. intros i j k. apply item_inside. exact H.
Qed.

Lemma sweep_short (nx ny nz : nat) (a : Array) :
  ~ covers a (S nx) (S ny) (S nz) ->
  sweep (Z.of_nat (S nx)) (Z.of_nat (S ny)) (Z.of_nat (S nz)) (item a)
  = Err IndexError.
Proof.
  intros H. unfold sweep. rewrite !range_0, !Nat2Z.id. apply sequence_Err.
  - intros m Hm. apply in_flat_map in Hm as (k & _ & Hm).
    apply in_flat_map in Hm as (j & _ & Hm).
    apply in_map_iff in Hm as (i & <- & _). apply item_cases.
  - exists (item a nx ny nz). split; [|apply item_corner; exact H].
    apply in_flat_map. exists (Z.of_nat nz). split.
    { apply in_map. apply in_seq. lia. }
    apply in_flat_map. exists (Z.of_nat ny). split.
    { apply in_map. apply in_seq. lia. }
    apply in_map_iff. exists (Z.of_nat nx). rewrite !Nat2Z.id. split; [reflexivity|].
    apply in_map. apply in_seq. lia.
Qed.

Lemma covers_refl (a : Array) (nx ny nz : nat) :
  a_shape a = (nx, ny, nz) -> covers a nx ny nz.
Proof. unfold covers. intros ->. lia. Qed.

Lemma keys_of_arrays_fit (nx ny nz c : nat) (arrays : list Array) :
  Forall (grid_or_nodes nx ny nz) arrays ->
  Forall (fits nx ny nz)
    (keys_of_arrays (Z.of_nat nx) (Z.of_nat ny) (Z.of_nat nz) c arrays).
Proof.
  intros H. revert c. induction H as [|a rest Ha _ IH]; intros c.
  - constructor.
  - cbn [keys_of_arrays]. constructor; [|apply IH].
    unfold fits. cbn [Key.pos Key.val]. unfold array_pos.
    destruct Ha as [E | E]; rewrite E.
    + right. split; [|apply covers_refl; exact E].
      rewrite !Z.eqb_refl.
      replace (Z.of_nat nx =? Z.of_nat nx - 1)%Z with false
        by (symmetry; apply Z.eqb_neq; lia).
      replace (Z.of_nat nx =? Z.of_nat nx + 1)%Z with false
        by (symmetry; apply Z.eqb_neq; lia).
      replace (Z.of_nat ny =? Z.of_nat ny - 1)%Z with false
        by (symmetry; apply Z.eqb_neq; lia).
      replace (Z.of_nat nz =? Z.of_nat nz - 1)%Z with false
        by (symmetry; apply Z.eqb_neq; lia).
      reflexivity.
    + left. split; [|apply covers_refl; exact E].
      replace (Z.of_nat (S nx) =? Z.of_nat nx + 1)%Z with true
        by (symmetry; apply Z.eqb_eq; lia).
      replace (Z.of_nat (S ny) =? Z.of_nat ny + 1)%Z with true
        by (symmetry; apply Z.eqb_eq; lia).
      replace (Z.of_nat (S nz) =? Z.of_nat nz + 1)%Z with true
        by (symmetry; apply Z.eqb_eq; lia).
      reflexivity.
Qed.

Lemma length_flat_map_const {A B : Type} (f : A -> list B) (l : list A) (n : nat) :
  (forall x, length (f x) = n) -> length (flat_map f l) = (length l * n)%nat.
Proof.
  intros H. induction l as [|x l IH]; [reflexivity|].
  cbn [flat_map length]. rewrite length_app, H, IH. reflexivity.
Qed.

Section TecplotFurther.

Variable fmt_e : Qc -> string.
Variable avg_x avg_y avg_z : Array -> result Array.
Variable cat_x cat_y cat_z : list Array -> result Array.

Local Abbreviation row := (row fmt_e).

Local Abbreviation wv := (write_values fmt_e).
Local Abbreviation wb := (write_block fmt_e).

Lemma row_app (l1 l2 : list Qc) : row (l1 ++ l2) = (row l1 ++ row l2)%string.
Proof.
  induction l1 as [|v l1 IH]; [reflexivity|].
  simpl. rewrite IH, !string_app_assoc. reflexivity.
Qed.

Lemma write_values_cons (c : nat) (v : Qc) (vs : list Qc) :
  wv c (v :: vs)
  = ((fmt_e v ++ " "
      ++ (if (S c mod col =? 0)%nat then nl else EmptyString)
      ++ fst (wv (S c) vs))%string,
     snd (wv (S c) vs)).
Proof. cbn -[Nat.modulo col]. destruct (wv (S c) vs). reflexivity. Qed.

Lemma write_values_count (c : nat) (vs : list Qc) :
  snd (wv c vs) = (c + length vs)%nat.
Proof.
  revert c. induction vs as [|v vs IH]; intros c.
  - simpl. lia.
  - rewrite write_values_cons. cbn [snd length]. rewrite IH. lia.
Qed.

Lemma write_values_app (c : nat) (l1 l2 : list Qc) :
  fst (wv c (l1 ++ l2))
  = (fst (wv c l1) ++ fst (wv (c + length l1) l2))%string.
Proof.
  revert c. induction l1 as [|v l1 IH]; intros c.
  - simpl. rewrite Nat.add_0_r. reflexivity.
  - rewrite <- app_comm_cons, !write_values_cons. cbn [fst length].
    rewrite IH, !string_app_assoc.
    replace (c + S (length l1))%nat with (S c + length l1)%nat by lia.
    reflexivity.
Qed.

Lemma write_values_shift (c : nat) (vs : list Qc) :
  fst (wv (c + col) vs) = fst (wv c vs).
Proof.
  revert c. induction vs as [|v vs IH]; intros c; [reflexivity|].
  rewrite !write_values_cons. cbn [fst].
  change (S (c + col)) with (S c + col)%nat. rewrite IH.
  replace ((S c + col) mod col)%nat with (S c mod col)%nat; [reflexivity|].
  unfold col. replace (S c + 10)%nat with (S c + 1 * 10)%nat by lia.
  rewrite Nat.Div0.mod_add. reflexivity.
Qed.

Lemma write_values_inside (c : nat) (vs : list Qc) :
  (c + length vs < col)%nat -> fst (wv c vs) = row vs.
Proof.
  revert c. induction vs as [|v vs IH]; intros c H; [reflexivity|].
  rewrite write_values_cons. cbn [fst length] in *.
  rewrite IH by lia.
  replace (S c mod col =? 0)%nat with false; [reflexivity|].
  symmetry. apply Nat.eqb_neq. rewrite Nat.mod_small by lia. lia.
Qed.

Lemma write_values_full (c : nat) (vs : list Qc) :
  vs <> [] -> (c + length vs = col)%nat -> fst (wv c vs) = (row vs ++ nl)%string.
Proof.
  revert c. induction vs as [|v vs IH]; intros c Hne H; [congruence|].
  rewrite write_values_cons. cbn [fst length] in *. destruct vs as [|w vs].
  - cbn [length] in H. replace (S c) with col by lia.
    change (col mod col =? 0)%nat with true. cbn [row fold_right wv write_values fst].
    rewrite !string_app_assoc, !string_app_nil_r. reflexivity.
  - rewrite IH by (cbn [length] in *; first [congruence | lia]).
    replace (S c mod col =? 0)%nat with false.
    + cbn [row fold_right]. rewrite !string_app_assoc. reflexivity.
    + symmetry. apply Nat.eqb_neq. cbn [length] in H.
      rewrite Nat.mod_small by lia. lia.
Qed.

Lemma write_block_eq (vs : list Qc) :
  wb vs = (fst (wv 0 vs)
           ++ (if (length vs mod col =? 0)%nat then EmptyString else nl))%string.
Proof.
  unfold write_block. pose proof (write_values_count 0 vs) as Hc.
  destruct (wv 0 vs) as [out c]. cbn [fst snd] in *. rewrite Hc.
  reflexivity.
Qed.

(** X6. How a block of values is laid out: nothing at all for no values;
    up to ten values on one line that is ended by a newline; and of more
    values the first ten make a full line, after which the remaining ones
    are laid out as a block of their own. So every line but the last holds
    ten values and the block ends in exactly one newline. *)
Theorem write_block_rows :
  wb [] = EmptyString
  /\ (forall vs, vs <> [] -> (length vs <= col)%nat -> wb vs = (row vs ++ nl)%string)
  /\ (forall l1 l2, length l1 = col ->
        wb (l1 ++ l2) = (row l1 ++ nl ++ wb l2)%string).
Proof.
  split; [reflexivity|]. split.
  - intros vs Hne Hlen. rewrite write_block_eq.
    destruct (Nat.eq_dec (length vs) col) as [Heq|Hlt].
    + rewrite (write_values_full 0 vs Hne Heq), Heq.
      change (col mod col =? 0)%nat with true. apply string_app_nil_r.
    + rewrite (write_values_inside 0 vs) by (cbn [Nat.add]; lia).
      replace (length vs mod col =? 0)%nat with false; [reflexivity|].
      symmetry. apply Nat.eqb_neq. rewrite Nat.mod_small by lia.
      destruct vs; [congruence | cbn [length]; lia].
  - intros l1 l2 Hlen. rewrite !write_block_eq, write_values_app.
    assert (Hne : l1 <> []) by (intros ->; discriminate Hlen).
    rewrite (write_values_full 0 l1 Hne Hlen).
    rewrite Hlen, (write_values_shift 0 l2), length_app, Hlen.
    replace ((col + length l2) mod col)%nat with (length l2 mod col)%nat.
    + rewrite !string_app_assoc. reflexivity.
    + unfold col. replace (10 + length l2)%nat with (length l2 + 1 * 10)%nat by lia.
      rewrite Nat.Div0.mod_add. reflexivity.
Qed.


Local Abbreviation coords := (coordinates fmt_e).
Local Abbreviation nodal := (nodal_variable fmt_e).
Local Abbreviation cellv := (cell_variable fmt_e avg_x avg_y avg_z cat_x cat_y cat_z).
Local Abbreviation values := (cell_values avg_x avg_y avg_z cat_x cat_y cat_z).
Local Abbreviation export := (tecplot fmt_e avg_x avg_y avg_z cat_x cat_y cat_z).

Lemma coordinates_Ok (xn yn zn : list Qc) :
  coords (Z.of_nat (length xn) - 1) (Z.of_nat (length yn) - 1)
    (Z.of_nat (length zn) - 1) xn yn zn
  = Ok (wb (x_block xn yn zn) ++ wb (y_block xn yn zn)
        ++ wb (z_block xn yn zn))%string.
Proof.
  unfold coordinates.
  replace (Z.of_nat (length xn) - 1 + 1)%Z with (Z.of_nat (length xn)) by lia.
  replace (Z.of_nat (length yn) - 1 + 1)%Z with (Z.of_nat (length yn)) by lia.
  replace (Z.of_nat (length zn) - 1 + 1)%Z with (Z.of_nat (length zn)) by lia.
  rewrite (sweep_Ok _ _ _ _ (fun i _ _ => nth i xn 0))
    by (intros i j k Hi _ _; apply coord_nth; lia).
  rewrite (sweep_Ok _ _ _ _ (fun _ j _ => nth j yn 0))
    by (intros i j k _ Hj _; apply coord_nth; lia).
  rewrite (sweep_Ok _ _ _ _ (fun _ _ k => nth k zn 0))
    by (intros i j k _ _ Hk; apply coord_nth; lia).
  cbn [rbind]. rewrite !Nat2Z.id. do 4 f_equal.
  - unfold x_block. rewrite (flat_map_over _ zn 0). apply flat_map_ext.
    intros _. rewrite (flat_map_over _ yn 0). apply flat_map_ext.
    intros _. apply nth_seq.
  - unfold y_block. rewrite (flat_map_over _ zn 0). apply flat_map_ext.
    intros _.
    rewrite (flat_map_over (fun y => map (fun _ => y) xn) yn 0).
    apply flat_map_ext. intros j. apply map_over.
  - unfold z_block.
    rewrite (flat_map_over (fun z => flat_map (fun _ => map (fun _ => z) xn) yn) zn 0).
    apply flat_map_ext. intros k. rewrite (flat_map_over _ yn 0).
    apply flat_map_ext. intros _. apply map_over.
Qed.

(** X7. The coordinate blocks never fail: with [nx], [ny], [nz] computed
    from the lengths of [xn], [yn], [zn] as in lines 34-39, every index read
    is in range, whatever the three lists are (empty ones included). The
    x block repeats [xn] for every node of y and z, the y block each entry
    of [yn] once per node of x, for every node of z, the z block each entry
    of [zn] once per node of x and y; each block has one value per node. *)
Theorem coordinates_blocks (xn yn zn : list Qc) :
  coords (Z.of_nat (length xn) - 1) (Z.of_nat (length yn) - 1)
    (Z.of_nat (length zn) - 1) xn yn zn
  = Ok (wb (x_block xn yn zn) ++ wb (y_block xn yn zn)
        ++ wb (z_block xn yn zn))%string
  /\ length (x_block xn yn zn) = (length zn * (length yn * length xn))%nat
  /\ length (y_block xn yn zn) = (length zn * (length yn * length xn))%nat
  /\ length (z_block xn yn zn) = (length zn * (length yn * length xn))%nat.
Proof.
  split; [apply coordinates_Ok|].
  unfold x_block, y_block, z_block.
  repeat split;
    repeat (apply length_flat_map_const; intros ?); rewrite ?length_map;
    reflexivity.
Qed.

(** X8. The values written for a cell-centred variable: when the array
    [val] reaches over the grid, its entries with [i < nx], [j < ny],
    [k < nz] are written, x running fastest, and entries beyond the grid
    are passed over in silence; when it does not reach over a grid that has
    cells, reading it ends in an [IndexError]. *)
Theorem cell_variable_bounds (k : Key.t) (val : Array) (nx ny nz : nat) :
  is_nodal k = false -> values k = Ok val ->
  (covers val nx ny nz ->
     cellv (Z.of_nat nx) (Z.of_nat ny) (Z.of_nat nz) k
     = Ok (wb (grid_block nx ny nz val)))
  /\ (~ covers val (S nx) (S ny) (S nz) ->
     cellv (Z.of_nat (S nx)) (Z.of_nat (S ny)) (Z.of_nat (S nz)) k
     = Err IndexError).
Proof.
  intros Hn Hv. unfold cell_variable. rewrite Hn, Hv. cbn [rbind]. split.
  - intros H. rewrite (sweep_covered _ _ _ _ H). reflexivity.
  - intros H. rewrite (sweep_short _ _ _ _ H). reflexivity.
Qed.

(** X11. On a grid with at least one node along each axis, with unknowns
    that are nodal or cell-centred and reach over the grid, and arrays
    shaped like its cells or like its nodes, the export does not fail: it
    writes to [file_name] followed by [.plt] the header, the three
    coordinate blocks, the blocks of the nodal variables in the order
    given, then the blocks of the cell-centred ones in the order given,
    then the tracers. *)
Theorem tecplot_writes (file_name : string) (xn yn zn : list Qc)
    (unknowns : list (Unknown Array)) (arrays : list Array)
    (tracers : list Tracer.t) (nx ny nz : nat) :
  length xn = S nx -> length yn = S ny -> length zn = S nz ->
  Forall (fun u => fits nx ny nz (key_of_unknown u)) unknowns ->
  Forall (grid_or_nodes nx ny nz) arrays ->
  let vars := analyze (Z.of_nat nx) (Z.of_nat ny) (Z.of_nat nz) unknowns arrays in
  export file_name (xn, yn, zn) unknowns arrays tracers
  = Ok ((file_name ++ ".plt")%string,
        (header (Z.of_nat nx) (Z.of_nat ny) (Z.of_nat nz) vars
         ++ (wb (x_block xn yn zn) ++ wb (y_block xn yn zn)
             ++ wb (z_block xn yn zn))
         ++ String.concat EmptyString
              (map (fun k => if is_nodal k
                             then wb (grid_block (S nx) (S ny) (S nz) (Key.val k))
                             else EmptyString) vars)
         ++ String.concat EmptyString
              (map (fun k => if is_nodal k then EmptyString
                             else wb (grid_block nx ny nz (Key.val k))) vars)
         ++ tracer_zone fmt_e tracers)%string).
Proof.
  intros Hx Hy Hz Hu Ha vars. unfold tecplot.
  rewrite coordinates_Ok. cbn [rbind].
  rewrite Hx, Hy, Hz.
  replace (Z.of_nat (S nx) - 1)%Z with (Z.of_nat nx) by lia.
  replace (Z.of_nat (S ny) - 1)%Z with (Z.of_nat ny) by lia.
  replace (Z.of_nat (S nz) - 1)%Z with (Z.of_nat nz) by lia.
  fold vars.
  assert (Hv : Forall (fits nx ny nz) vars).
  { unfold vars, analyze. apply Forall_app. split.
    - apply Forall_map. exact Hu.
    - apply keys_of_arrays_fit. exact Ha. }
  rewrite Forall_forall in Hv.
  rewrite (sequence_map_Ok _
             (fun k => if is_nodal k
                       then wb (grid_block (S nx) (S ny) (S nz) (Key.val k))
                       else EmptyString)).
  2:{ intros k Hk. unfold nodal_variable. destruct (is_nodal k) eqn:En; [|reflexivity].
      destruct (Hv k (proj2 (list_elem_of_In _ _) Hk)) as [[_ Hc] | [Hp _]].
      - replace (Z.of_nat nx + 1)%Z with (Z.of_nat (S nx)) by lia.
        replace (Z.of_nat ny + 1)%Z with (Z.of_nat (S ny)) by lia.
        replace (Z.of_nat nz + 1)%Z with (Z.of_nat (S nz)) by lia.
        rewrite (sweep_covered _ _ _ _ Hc). reflexivity.
      - unfold is_nodal in En. rewrite Hp in En. discriminate. }
  cbn [rbind].
  rewrite (sequence_map_Ok _
             (fun k => if is_nodal k then EmptyString
                       else wb (grid_block nx ny nz (Key.val k)))).
  2:{ intros k Hk. unfold cell_variable. destruct (is_nodal k) eqn:En; [reflexivity|].
      destruct (Hv k (proj2 (list_elem_of_In _ _) Hk)) as [[Hp _] | [Hp Hc]].
      - unfold is_nodal in En. rewrite Hp in En. discriminate.
      - unfold cell_values. rewrite Hp. cbn [rbind].
        rewrite (sweep_covered _ _ _ _ Hc). reflexivity. }
  reflexivity.
Qed.

End TecplotFurther.

(** X5. The position given to a plain array is decided by its shape alone,
    and the four tests of lines 70-77 exclude one another: the array is
    taken as staggered in x, y or z exactly when its shape is that of the
    cells less one along that axis, as nodal exactly when its shape is that
    of the nodes, and as cell-centred in every other case, whatever its
    shape then is. No later test overrides an earlier one. *)
Theorem array_pos_by_shape (nx ny nz : Z) (a : Array) :
  let '(n1, n2, n3) := a_shape a in
  let sh := (Z.of_nat n1, Z.of_nat n2, Z.of_nat n3) in
  (array_pos nx ny nz a = Position.X <-> sh = (nx - 1, ny, nz)%Z)
  /\ (array_pos nx ny nz a = Position.Y <-> sh = (nx, ny - 1, nz)%Z)
  /\ (array_pos nx ny nz a = Position.Z <-> sh = (nx, ny, nz - 1)%Z)
  /\ (array_pos nx ny nz a = Position.N <-> sh = (nx + 1, ny + 1, nz + 1)%Z)
  /\ (array_pos nx ny nz a = Position.C <->
        sh <> (nx - 1, ny, nz)%Z /\ sh <> (nx, ny - 1, nz)%Z
        /\ sh <> (nx, ny, nz - 1)%Z /\ sh <> (nx + 1, ny + 1, nz + 1)%Z).
Proof.
  unfold array_pos. destruct (a_shape a) as [[n1 n2] n3].
  repeat match goal with
         | |- context [(?x =? ?y)%Z] => destruct (Z.eqb_spec x y)
         end; cbn [andb];
  repeat split; intros; try discriminate; try congruence;
  repeat match goal with
         | H : _ /\ _ |- _ => destruct H
         | H : (_, _) = (_, _) |- _ => injection H as ? ? ?
         | |- (_, _) <> (_, _) => intros [= ? ? ?]
         | |- (_, _) = (_, _) => f_equal
         end; try lia; try congruence.
Qed.

Lemma read_fmt_d (n : nat) : (0 < n)%nat -> read_count (fmt_d (Z.of_nat n)) = Some n.
Proof.
  intros H. unfold read_count, fmt_d.
  rewrite NilZero.isi.
  - rewrite DecimalZ.of_to, Nat2Z.id. reflexivity.
  - destruct n as [|n]; [lia|]. cbn [Z.of_nat Z.to_int]. intros [= E].
    exact (DecimalPos.Unsigned.to_uint_nonnil _ E).
  - destruct n as [|n]; [lia|]. cbn [Z.of_nat Z.to_int]. discriminate.
Qed.

(** The number in an array's name can be read back. *)
Lemma read_fmt_2d (c : nat) : read_count (fmt_2d c) = Some c.
Proof.
  unfold fmt_2d. destruct (c <? 10)%nat eqn:E.
  - apply Nat.ltb_lt in E.
    do 10 (destruct c as [|c]; [reflexivity|]). lia.
  - apply Nat.ltb_ge in E. apply read_fmt_d. lia.
Qed.

Lemma fmt_2d_inj (c d : nat) : fmt_2d c = fmt_2d d -> c = d.
Proof.
  intros H. pose proof (read_fmt_2d c) as Hc. rewrite H, read_fmt_2d in Hc.
  congruence.
Qed.

Lemma string_app_inv (p a b : string) : (p ++ a = p ++ b)%string -> a = b.
Proof.
  induction p as [|x p IH]; [trivial|].
  unfold append; fold append. intros [= H]. exact (IH H).
Qed.

Lemma keys_of_arrays_names (nx ny nz : Z) (c : nat) (arrays : list Array) :
  map Key.name (keys_of_arrays nx ny nz c arrays)
  = map (fun i => ("pyns-var-" ++ fmt_2d i)%string) (seq c (length arrays)).
Proof.
  revert c. induction arrays as [|a rest IH]; intros c; [reflexivity|].
  cbn [keys_of_arrays map length seq Key.name]. rewrite IH. reflexivity.
Qed.

(** X9. The names given to plain arrays: the array at index [i] is named
    [pyns-var-] followed by [i] in decimal with at least two digits, the
    number can be read back from its digits, and so two arrays with the
    same name are at the same index. *)
Theorem array_names_distinct (nx ny nz : Z) (arrays : list Array) (i j : nat)
    (ki kj : Key.t) :
  keys_of_arrays nx ny nz 0 arrays !! i = Some ki ->
  keys_of_arrays nx ny nz 0 arrays !! j = Some kj ->
  read_count (fmt_2d i) = Some i
  /\ Key.name ki = ("pyns-var-" ++ fmt_2d i)%string
  /\ (Key.name ki = Key.name kj -> i = j).
Proof.
  intros Hi Hj.
  assert (N : forall n k, keys_of_arrays nx ny nz 0 arrays !! n = Some k ->
            Key.name k = ("pyns-var-" ++ fmt_2d n)%string).
  { intros n k Hk.
    assert (E : map Key.name (keys_of_arrays nx ny nz 0 arrays) !! n
                = Some (Key.name k)).
    { change (map Key.name) with (fmap (M:=list) Key.name).
      rewrite list_lookup_fmap, Hk. reflexivity. }
    rewrite keys_of_arrays_names in E.
    change (map ?f ?l) with (fmap (M:=list) f l) in E.
    rewrite list_lookup_fmap in E.
    destruct (seq 0 (length arrays) !! n) as [m|] eqn:Em; [|discriminate].
    apply lookup_seq in Em as [-> _]. injection E as <-. reflexivity. }
  split; [apply read_fmt_2d|]. split; [apply N; exact Hi|].
  rewrite (N _ _ Hi), (N _ _ Hj). intros H.
  apply string_app_inv in H. apply fmt_2d_inj. exact H.
Qed.

Lemma concat_cons (x : string) (l : list string) :
  String.concat EmptyString (x :: l) = (x ++ String.concat EmptyString l)%string.
Proof.
  destruct l as [|y l]; cbn [String.concat].
  - symmetry. apply string_app_nil_r.
  - reflexivity.
Qed.

Lemma concat_app (l1 l2 : list string) :
  String.concat EmptyString (l1 ++ l2)
  = (String.concat EmptyString l1 ++ String.concat EmptyString l2)%string.
Proof.
  induction l1 as [|x l1 IH]; [reflexivity|].
  rewrite <- app_comm_cons, !concat_cons, IH, string_app_assoc. reflexivity.
Qed.

Lemma concat_nodal (vars : list Key.t) :
  String.concat EmptyString
    (map (fun k => if is_nodal k then quoted (Key.name k) else EmptyString) vars)
  = String.concat EmptyString (map quoted (nodal_names vars)).
Proof.
  unfold nodal_names. induction vars as [|k vars IH]; [reflexivity|].
  rewrite filter_cons. cbn [map]. rewrite concat_cons, IH.
  destruct (is_nodal k); case_decide; try congruence.
  - cbn [map]. rewrite concat_cons. reflexivity.
  - reflexivity.
Qed.

Lemma concat_cell (vars : list Key.t) :
  String.concat EmptyString
    (map (fun k => if is_nodal k then EmptyString else quoted (Key.name k)) vars)
  = String.concat EmptyString (map quoted (cell_names vars)).
Proof.
  unfold cell_names. induction vars as [|k vars IH]; [reflexivity|].
  rewrite filter_cons. cbn [map]. rewrite concat_cons, IH.
  destruct (is_nodal k); case_decide; try congruence.
  - reflexivity.
  - cbn [map]. rewrite concat_cons. reflexivity.
Qed.

Lemma names_permutation (vars : list Key.t) :
  Permutation (nodal_names vars ++ cell_names vars) (map Key.name vars).
Proof.
  unfold nodal_names, cell_names. induction vars as [|k vars IH]; [constructor|].
  rewrite !filter_cons. destruct (is_nodal k); repeat case_decide; try congruence.
  - cbn [map app]. constructor. exact IH.
  - cbn [map]. rewrite <- Permutation_middle. constructor. exact IH.
Qed.

Lemma keys_of_arrays_length (nx ny nz : Z) (c : nat) (arrays : list Array) :
  length (keys_of_arrays nx ny nz c arrays) = length arrays.
Proof.
  revert c. induction arrays as [|a rest IH]; intros c; [reflexivity|].
  cbn [keys_of_arrays length]. rewrite IH. reflexivity.
Qed.

(** X10. The header lists, after x, y and z, the name of every unknown and
    of every array exactly once: the nodal ones first, then the others,
    each group in the order of the input. Its [VARLOCATION] line marks the
    columns 1 to 3 plus the number of nodal names as nodal and the columns
    after them, up to 3 plus the number of names listed, as cell-centred;
    that last number is 3 plus the number of inputs. *)
Theorem header_columns (nx ny nz : Z) (unknowns : list (Unknown Array))
    (arrays : list Array) :
  let vars := analyze nx ny nz unknowns arrays in
  let listed := (nodal_names vars ++ cell_names vars)%list in
  header nx ny nz vars
  = ("title=" ++ dq ++ "PyNS Output" ++ dq ++ nl
     ++ "VARIABLES = " ++ dq ++ "x" ++ dq ++ " " ++ dq ++ "y" ++ dq ++ " "
     ++ dq ++ "z" ++ dq
     ++ String.concat EmptyString (map quoted listed)
     ++ nl
     ++ "ZONE " ++ nl
     ++ "I=" ++ fmt_d (nx + 1) ++ " J=" ++ fmt_d (ny + 1)
     ++ " K=" ++ fmt_d (nz + 1) ++ nl
     ++ "DATAPACKING = BLOCK" ++ nl
     ++ "VARLOCATION=([1-" ++ fmt_d (3 + Z.of_nat (length (nodal_names vars)))
     ++ "]=NODAL "
     ++ "[" ++ fmt_d (4 + Z.of_nat (length (nodal_names vars))) ++ "-"
     ++ fmt_d (3 + Z.of_nat (length listed))
     ++ "]=CELLCENTERED)" ++ nl)%string
  /\ Permutation listed (map name unknowns ++ map Key.name (keys_of_arrays nx ny nz 0 arrays))
  /\ length listed = (length unknowns + length arrays)%nat.
Proof.
  intros vars listed.
  assert (P : Permutation listed (map Key.name vars)) by apply names_permutation.
  split; [|split].
  - unfold header. rewrite concat_nodal, concat_cell.
    unfold listed. rewrite map_app, concat_app, length_app, Nat2Z.inj_add.
    unfold c_nod, c_cel, nodal_names, cell_names. rewrite !length_map.
    rewrite !string_app_assoc, Z.add_assoc. reflexivity.
  - rewrite P. unfold vars, analyze. rewrite map_app, map_map. reflexivity.
  - rewrite (Permutation_length P), length_map. unfold vars, analyze.
    rewrite length_app, length_map, keys_of_arrays_length. reflexivity.
Qed.

(** The properties above at small inputs. *)

Lemma write_block_rows_witness :
  write_block demo_fmt [qz 1; qz 2] = (row demo_fmt [qz 1; qz 2] ++ nl)%string
  /\ write_block demo_fmt (repeat (qz 1) 10 ++ [qz 2])
     = (row demo_fmt (repeat (qz 1) 10) ++ nl ++ write_block demo_fmt [qz 2])%string.
Proof.
  split.
  - apply (proj1 (proj2 (write_block_rows demo_fmt))).
    + discriminate.
    + vm_compute. lia.
  - apply (proj2 (proj2 (write_block_rows demo_fmt))). reflexivity.
Defined.

Lemma cell_variable_bounds_witness :
  cell_variable demo_fmt demo_avg demo_avg demo_avg demo_cat demo_cat demo_cat
    2 1 1 (Key.mk "t" Position.C (mkArray (2, 1, 1)%nat [qz 5; qz 7]) None)
  = Ok (write_block demo_fmt [qz 5; qz 7])
  /\ cell_variable demo_fmt demo_avg demo_avg demo_avg demo_cat demo_cat demo_cat
       3 2 2 (Key.mk "t" Position.C (mkArray (2, 1, 1)%nat [qz 5; qz 7]) None)
     = Err IndexError.
Proof.
  pose proof (cell_variable_bounds demo_fmt demo_avg demo_avg demo_avg
                demo_cat demo_cat demo_cat
                (Key.mk "t" Position.C (mkArray (2, 1, 1)%nat [qz 5; qz 7]) None)
                (mkArray (2, 1, 1)%nat [qz 5; qz 7]) 2 1 1 eq_refl eq_refl)
    as [H1 H2].
  split.
  - apply H1. vm_compute. lia.
  - apply H2. vm_compute. lia.
Defined.

Lemma array_names_distinct_witness :
  read_count (fmt_2d 0) = Some 0%nat
  /\ Key.name (Key.mk "pyns-var-00" Position.C (zeros (1, 1, 1)%nat) None)
     = ("pyns-var-" ++ fmt_2d 0)%string
  /\ (Key.name (Key.mk "pyns-var-00" Position.C (zeros (1, 1, 1)%nat) None)
      = Key.name (Key.mk "pyns-var-01" Position.C (zeros (1, 1, 1)%nat) None)
      -> 0%nat = 1%nat).
Proof.
  apply (array_names_distinct 1 1 1 [zeros (1, 1, 1)%nat; zeros (1, 1, 1)%nat]);
    reflexivity.
Defined.

Lemma tecplot_writes_witness :
  exists text,
    tecplot demo_fmt demo_avg demo_avg demo_avg demo_cat demo_cat demo_cat
      "out" ([qz 0; qz 1; qz 2], [qz 0; qz 1], [qz 0; qz 1])
      [] [mkArray (2, 1, 1)%nat [qz 5; qz 7]] []
    = Ok ("out.plt"%string, text).
Proof.
  eexists.
  apply (tecplot_writes demo_fmt demo_avg demo_avg demo_avg demo_cat demo_cat
           demo_cat "out" [qz 0; qz 1; qz 2] [qz 0; qz 1] [qz 0; qz 1]
           [] [mkArray (2, 1, 1)%nat [qz 5; qz 7]] [] 2 1 1).
  - reflexivity.
  - reflexivity.
  - reflexivity.
  - constructor.
  - constructor; [left; reflexivity | constructor].
Defined.
